(** * keyboard-mcp: the approval channel, the token store and the payload cipher

    A shallow embedding of three parts of keyboard-mcp:
    - [WebSocketManager] of src/approver.ts (connection lifecycle, outbound
      queue, the single pending approval request);
    - the token store [executionCodeCollection] of src/index.ts with the
      tools [evaluate] and [execute], and [executeCodeOnCodespace] of
      src/codespaces.ts;
    - [encrypt] and [decrypt] of src/encryption.ts, down to the bytes:
      UTF-8 as Node encodes and decodes it, hex as Node parses it, and
      AES-256-CBC with PKCS#7 padding as OpenSSL computes it. *)

From Stdlib Require Import ZArith Lia List Bool.
From stdpp Require Import base gmap strings list.
From Stdlib Require Import Btauto.
Import ListNotations.

Open Scope Z_scope.

(* ================================================================== *)
(** * 1. The connection manager (src/approver.ts) *)
(* ================================================================== *)

Module Approver.

(** [WebSocket.readyState] of one socket object. *)
Inductive ReadyState := CONNECTING | OPEN | CLOSING | CLOSED.

#[global] Instance ReadyState_eq_dec : EqDecision ReadyState.
Proof. solve_decision. Defined.

(** A reply from the approval app, as [JSON.parse] sees it: an object
    (with its [status] and [feedback] fields, [None] when absent or not
    a string) or text that does not parse. *)
Inductive Reply :=
| RJson (status : option string) (feedback : option string)
| RText (s : string).

(** The value a pending request is resolved with by [handleMessage]: the
    parsed object when it is approved, otherwise the JSON text
    [{error, feedback?}] built there. *)
Inductive JsVal :=
| JReply (status : option string) (feedback : option string)
| JErrorText (error : string) (feedback : option string).

(** [value.status === 'approved'] (a string has no [status]). *)
Definition is_approved (v : JsVal) : bool :=
  match v with
  | JReply (Some s) _ => bool_decide (s = "approved")
  | _ => false
  end.

(** How a request's promise settles. *)
Inductive Settled :=
| SResolved (v : JsVal)
| SRejected (err : string).

(** An outbound message. [WItem] is the [messageItem] of [send] (its
    JSON text); [WObj] is the object given to [sendAndWaitForApproval],
    identified by its [id]. JSON.stringify is injective on both, so the
    order and identity of what is on the wire is kept. *)
Inductive Wire :=
| WItem (id : Z) (title body : string)
| WObj (id : string).

(** The observable effects, in the order they happen: a message written
    to a socket, a request's promise settled. *)
Inductive Act :=
| ATransmit (sock : nat) (w : Wire)
| ASettle (req : nat) (s : Settled).

(** The fields of a [WebSocketManager] together with the sockets it has
    created. Sockets are numbered in creation order; [sockets] holds the
    [readyState] of each; [ws] is [this.ws]. The pending request is
    named by the number of its promise ([next_req] counts them); the
    reconnect timers alive are listed in [timers]. [trace] is the list of
    effects so far. [maxReconnectAttempts] is a non-negative integer, as
    the default 5 is; a fractional or negative value, which
    [connect-websocket] would also pass on, is outside this model. *)
Record WSM := mkWSM {
  url_valid : bool;
  autoReconnect : bool;
  maxReconnectAttempts : nat;
  ws : option nat;
  sockets : list ReadyState;
  messageQueue : list Wire;
  reconnectAttempts : nat;
  reconnectTimer : option nat;
  timers : list nat;
  next_timer : nat;
  pendingResponse : option nat;
  next_req : nat;
  trace : list Act
}.

Definition set_ws (w : option nat) (m : WSM) : WSM :=
  mkWSM m.(url_valid) m.(autoReconnect) m.(maxReconnectAttempts) w m.(sockets)
    m.(messageQueue) m.(reconnectAttempts) m.(reconnectTimer) m.(timers)
    m.(next_timer) m.(pendingResponse) m.(next_req) m.(trace).

Definition set_sockets (l : list ReadyState) (m : WSM) : WSM :=
  mkWSM m.(url_valid) m.(autoReconnect) m.(maxReconnectAttempts) m.(ws) l
    m.(messageQueue) m.(reconnectAttempts) m.(reconnectTimer) m.(timers)
    m.(next_timer) m.(pendingResponse) m.(next_req) m.(trace).

Definition set_queue (q : list Wire) (m : WSM) : WSM :=
  mkWSM m.(url_valid) m.(autoReconnect) m.(maxReconnectAttempts) m.(ws)
    m.(sockets) q m.(reconnectAttempts) m.(reconnectTimer) m.(timers)
    m.(next_timer) m.(pendingResponse) m.(next_req) m.(trace).

Definition set_attempts (n : nat) (m : WSM) : WSM :=
  mkWSM m.(url_valid) m.(autoReconnect) m.(maxReconnectAttempts) m.(ws)
    m.(sockets) m.(messageQueue) n m.(reconnectTimer) m.(timers)
    m.(next_timer) m.(pendingResponse) m.(next_req) m.(trace).

Definition set_auto (b : bool) (m : WSM) : WSM :=
  mkWSM m.(url_valid) b m.(maxReconnectAttempts) m.(ws)
    m.(sockets) m.(messageQueue) m.(reconnectAttempts) m.(reconnectTimer)
    m.(timers) m.(next_timer) m.(pendingResponse) m.(next_req) m.(trace).

Definition set_timers (rt : option nat) (ts : list nat) (nt : nat) (m : WSM) : WSM :=
  mkWSM m.(url_valid) m.(autoReconnect) m.(maxReconnectAttempts) m.(ws)
    m.(sockets) m.(messageQueue) m.(reconnectAttempts) rt ts nt
    m.(pendingResponse) m.(next_req) m.(trace).

Definition set_pending (p : option nat) (nr : nat) (m : WSM) : WSM :=
  mkWSM m.(url_valid) m.(autoReconnect) m.(maxReconnectAttempts) m.(ws)
    m.(sockets) m.(messageQueue) m.(reconnectAttempts) m.(reconnectTimer)
    m.(timers) m.(next_timer) p nr m.(trace).

Definition emit (a : Act) (m : WSM) : WSM :=
  mkWSM m.(url_valid) m.(autoReconnect) m.(maxReconnectAttempts) m.(ws)
    m.(sockets) m.(messageQueue) m.(reconnectAttempts) m.(reconnectTimer)
    m.(timers) m.(next_timer) m.(pendingResponse) m.(next_req)
    (m.(trace) ++ [a]).

(** [this.ws && this.ws.readyState === WebSocket.OPEN]: the socket
    [this.ws] points to, when it is open. *)
Definition open_socket (m : WSM) : option nat :=
  match m.(ws) with
  | Some w => if decide (m.(sockets) !! w = Some OPEN) then Some w else None
  | None => None
  end.

(** [scheduleReconnect] *)
Definition scheduleReconnect (m : WSM) : WSM :=
  if (m.(maxReconnectAttempts) <=? m.(reconnectAttempts))%nat then m
  else
    let t := m.(next_timer) in
    set_timers (Some t) (m.(timers) ++ [t]) (S t)
      (set_attempts (S m.(reconnectAttempts)) m).

(** [connect]: [new WebSocket(url)] creates a socket in state CONNECTING
    and stores it in [this.ws]; when the constructor throws (an invalid
    URL), [this.ws] keeps its value and a reconnect is scheduled. *)
Definition connect (m : WSM) : WSM :=
  if m.(url_valid) then
    let s := length m.(sockets) in
    set_ws (Some s) (set_sockets (m.(sockets) ++ [CONNECTING]) m)
  else if m.(autoReconnect) then scheduleReconnect m else m.

(** [flushQueue]: shift every queued message; it is written when
    [this.ws] is open, and dropped otherwise. *)
Fixpoint flush (q : list Wire) (m : WSM) : WSM :=
  match q with
  | [] => m
  | x :: q' =>
      flush q' (match open_socket m with
                | Some w => emit (ATransmit w x) m
                | None => m
                end)
  end.

Definition flushQueue (m : WSM) : WSM := flush m.(messageQueue) (set_queue [] m).

(** [clearPendingResponse] preceded by settling the pending promise: the
    statement pair [this.pendingResponse.reject(e); this.clearPendingResponse()]
    (and the same with [resolve]). *)
Definition settle_pending (s : Settled) (m : WSM) : WSM :=
  match m.(pendingResponse) with
  | Some r => set_pending None m.(next_req) (emit (ASettle r s) m)
  | None => m
  end.

(** The statements of a handler, run in order. *)
Definition run_stmts (body : list (WSM -> WSM)) (m : WSM) : WSM :=
  fold_left (fun acc f => f acc) body m.

(** The body of the ['close'] handler: [this.ws = null]; reject and
    clear the pending response; [scheduleReconnect] when auto-reconnect
    is on. *)
Definition close_body : list (WSM -> WSM) :=
  [ set_ws None;
    settle_pending (SRejected "WebSocket disconnected");
    fun m => if m.(autoReconnect) then scheduleReconnect m else m ].

(** The body of the ['error'] handler: [this.ws = null]; reject the
    pending response with the error and clear it. *)
Definition error_body (e : string) : list (WSM -> WSM) :=
  [ set_ws None; settle_pending (SRejected e) ].

(** [ws.close()] on the socket object: a connecting or open socket starts
    closing (the ['close'] event comes later). *)
Definition close_socket (s : nat) (m : WSM) : WSM :=
  match m.(sockets) !! s with
  | Some CONNECTING | Some OPEN => set_sockets (<[s := CLOSING]> m.(sockets)) m
  | _ => m
  end.

(** The body of [disconnect]. *)
Definition disconnect_body : list (WSM -> WSM) :=
  [ set_auto false;
    (fun m => match m.(reconnectTimer) with
              | Some t => set_timers None (remove Nat.eq_dec t m.(timers)) m.(next_timer) m
              | None => m
              end);
    settle_pending (SRejected "WebSocket disconnected");
    (fun m => match m.(ws) with
              | Some w => set_ws None (close_socket w m)
              | None => m
              end) ].

Definition disconnect (m : WSM) : WSM := run_stmts disconnect_body m.

(** [reconnect] *)
Definition reconnect (m : WSM) : WSM :=
  connect (set_attempts 0 (set_auto true (disconnect m))).

(** The reply interpretation of [handleMessage] while a response is
    awaited. *)
Definition interpret_reply (d : Reply) : JsVal :=
  match d with
  | RJson (Some st) fb =>
      if bool_decide (st = "approved") then JReply (Some st) fb
      else if bool_decide (st = "rejected") then
        JErrorText "code execution rejected"
          (Some (match fb with
                 | Some f => if bool_decide (f = "") then "yo you rejected the message" else f
                 | None => "yo you rejected the message"
                 end))
      else JErrorText "Invalid approval response" None
  | RJson None _ => JErrorText "Invalid approval response" None
  | RText _ => JErrorText "Failed to parse JSON response" None
  end.

(** [handleMessage]: with a pending response, the message is its reply;
    otherwise it is only logged. *)
Definition handleMessage (d : Reply) (m : WSM) : WSM :=
  match m.(pendingResponse) with
  | Some _ => settle_pending (SResolved (interpret_reply d)) m
  | None => m
  end.

(** [send(message, title)]: returns whether it was written at once. *)
Definition send (now : Z) (message title : string) (m : WSM) : bool * WSM :=
  let item := WItem now (if bool_decide (title = "")
                         then "Welcome my guy to the notification app!" else title)
                    message in
  match open_socket m with
  | Some w => (true, emit (ATransmit w item) m)
  | None => (false, set_queue (m.(messageQueue) ++ [item]) m)
  end.

(** The promise returned by [sendAndWaitForApproval]: rejected at once by
    the [throw] of the guard, or the request numbered [r]. *)
Inductive AwaitResult :=
| AwThrown (err : string)
| AwIssued (r : nat).

(** [sendAndWaitForApproval(messageObject, timeout)]; the message object
    is named by its [id]. *)
Definition sendAndWaitForApproval (id : string) (m : WSM) : AwaitResult * WSM :=
  match m.(pendingResponse) with
  | Some _ => (AwThrown "Already waiting for a response", m)
  | None =>
      let r := m.(next_req) in
      let m1 := set_pending (Some r) (S r) m in
      match open_socket m1 with
      | Some w => (AwIssued r, emit (ATransmit w (WObj id)) m1)
      | None =>
          (AwIssued r, emit (ASettle r (SRejected "WebSocket not connected"))
                         (set_pending None (S r) m1))
      end
  end.

(** The timeout callback of request [r]; its timer is cleared whenever
    the request stops being the pending one, so it only runs while [r] is
    pending. *)
Definition on_timeout (r : nat) (m : WSM) : WSM :=
  match m.(pendingResponse) with
  | Some r' => if Nat.eq_dec r r' then
                 emit (ASettle r (SRejected "Response timeout")) (set_pending None m.(next_req) m)
               else m
  | None => m
  end.

(** A reconnect timer firing: [this.connect()]. *)
Definition on_fire (t : nat) (m : WSM) : WSM :=
  if decide (t ∈ m.(timers)) then
    connect (set_timers m.(reconnectTimer) (remove Nat.eq_dec t m.(timers)) m.(next_timer) m)
  else m.

(** Calls on the manager and events of the sockets it created. The
    handlers of a socket are those registered by the [connect] that
    created it; they act on the manager, whatever [this.ws] is then. *)
Inductive Input :=
| ISend (now : Z) (message title : string)
| IAwait (id : string)
| IDisconnect
| IReconnect
| IOpen (s : nat)
| IClose (s : nat)
| IError (s : nat) (e : string)
| IMessage (s : nat) (d : Reply)
| ITimeout (r : nat)
| IFire (t : nat).

Definition set_state (s : nat) (rs : ReadyState) (m : WSM) : WSM :=
  set_sockets (<[s := rs]> m.(sockets)) m.

Definition step (i : Input) (m : WSM) : WSM :=
  match i with
  | ISend now msg title => snd (send now msg title m)
  | IAwait id => snd (sendAndWaitForApproval id m)
  | IDisconnect => disconnect m
  | IReconnect => reconnect m
  | IOpen s => flushQueue (set_attempts 0 (set_state s OPEN m))
  | IClose s => run_stmts close_body (set_state s CLOSED m)
  | IError s e => run_stmts (error_body e) (set_state s CLOSING m)
  | IMessage _ d => handleMessage d m
  | ITimeout r => on_timeout r m
  | IFire t => on_fire t m
  end.

(** The events the environment can deliver in a state. *)
Definition enabled (i : Input) (m : WSM) : bool :=
  match i with
  | IOpen s => bool_decide (m.(sockets) !! s = Some CONNECTING)
  | IClose s | IError s _ =>
      match m.(sockets) !! s with
      | Some CONNECTING | Some OPEN | Some CLOSING => true
      | _ => false
      end
  | IMessage s _ => bool_decide (m.(sockets) !! s = Some OPEN)
  | ITimeout r => bool_decide (m.(pendingResponse) = Some r)
  | IFire t => bool_decide (t ∈ m.(timers))
  | _ => true
  end.

(** [new WebSocketManager(options)] *)
Definition init (url_ok auto : bool) (max : nat) : WSM :=
  connect (mkWSM url_ok auto max None [] [] 0 None [] 0 None 0 []).

Fixpoint run (is : list Input) (m : WSM) : WSM :=
  match is with
  | [] => m
  | i :: is' => run is' (step i m)
  end.

(** A run where every event is one the environment can deliver. *)
Fixpoint valid_run (is : list Input) (m : WSM) : bool :=
  match is with
  | [] => true
  | i :: is' => enabled i m && valid_run is' (step i m)
  end.

(** How request [r] has settled so far, if it has. *)
Fixpoint settled_in (tr : list Act) (r : nat) : option Settled :=
  match tr with
  | [] => None
  | ASettle r' s :: tr' => if Nat.eq_dec r r' then Some s else settled_in tr' r
  | _ :: tr' => settled_in tr' r
  end.

(** A request is in flight when it has been issued and its promise has
    not settled. *)
Definition in_flight (m : WSM) (r : nat) : Prop :=
  (r < m.(next_req))%nat /\ settled_in m.(trace) r = None.

Definition reachable (m : WSM) : Prop :=
  exists is u a n, m = run is (init u a n).


(** The invariant behind single flight: every request issued and not yet
    settled is the pending one. *)
Definition single_inv (m : WSM) : Prop :=
  forall r, (r < m.(next_req))%nat -> settled_in m.(trace) r = None ->
            m.(pendingResponse) = Some r.

(** A manager awaiting request 0 on its open first socket. *)
Definition awaiting_state : WSM := run [IOpen 0; IAwait "req-1"] (init true true 5).

End Approver.

(* ================================================================== *)
(** * 2. The token store and the evaluate / execute tools (src/index.ts) *)
(* ================================================================== *)

Module Tokens.
Import Approver.

(** ** String helpers with the semantics of the JavaScript methods used *)

Local Open Scope string_scope.

(** [s.split(sep)] for a non-empty separator. *)
Fixpoint split_go (fuel : nat) (sep s acc : string) : list string :=
  match fuel with
  | O => [String.append acc s]
  | S f =>
      match s with
      | EmptyString => [acc]
      | String c rest =>
          if String.prefix sep s
          then acc :: split_go f sep (String.substring (String.length sep)
                                        (String.length s - String.length sep) s) ""
          else split_go f sep rest (String.append acc (String c EmptyString))
      end
  end.

Definition js_split (sep s : string) : list string :=
  split_go (S (String.length s)) sep s "".

(** [s.replace(pat, rep)] with a string pattern: the first occurrence. *)
Definition js_replace_first (pat rep s : string) : string :=
  match String.index 0 pat s with
  | Some i => String.append (String.substring 0 i s)
                (String.append rep (String.substring (i + String.length pat)
                                      (String.length s - i - String.length pat) s))
  | None => s
  end.

(** [code.split("\n").length] *)
Definition lines (code : string) : nat :=
  length (js_split (String (Ascii.ascii_of_nat 10) EmptyString) code).

(** ** The store [executionCodeCollection] *)

(** The value stored under a token key: [{}] (a fresh execution token),
    [{code}] (an approved execution token), or the planning record. *)
Inductive Entry :=
| EEmpty
| ECode (code : string)
| EPlanned (plan : option (bool * bool)).

(** A property of a user's object: the string fields [executionToken]
    and [planningToken], and the token keys, share one namespace. *)
Inductive UVal :=
| UStr (s : string)
| UEntry (e : Entry).

Abbreviation UserObj := (gmap string UVal).
Abbreviation Store := (gmap string (gmap string UVal)).

Definition defaultUserId : string := "keyboard-mcp-user".

(** [executionCodeCollection[userId]], with [{}] when it is missing (the
    [if (!executionCodeCollection[userId]) ... = {}] of the generators). *)
Definition user_obj (st : Store) (u : string) : UserObj :=
  default ∅ (st !! u).

(** [generateExecutionToken(userId)]; [draw] is the 16 characters picked
    by [Math.random]. *)
Definition generateExecutionToken (draw userId : string) (st : Store) : string * Store :=
  let result := draw in
  let o := user_obj st userId in
  (result, <[userId := <[result := UEntry EEmpty]> (<["executionToken" := UStr result]> o)]> st).

(** [generatePlanningToken(userId)] *)
Definition generatePlanningToken (draw userId : string) (st : Store) : string * Store :=
  let result := String.append "plan_" draw in
  let o := user_obj st userId in
  (result, <[userId := <[result := UEntry (EPlanned None)]> (<["planningToken" := UStr result]> o)]> st).

(** The [plan] tool's effect on the store: a planning token, then the
    plan stored under it. *)
Definition plan (draw : string) (flags : bool * bool) (st : Store) : string * Store :=
  let '(tok, st1) := generatePlanningToken draw defaultUserId st in
  let o := user_obj st1 defaultUserId in
  (tok, <[defaultUserId := <[tok := UEntry (EPlanned (Some flags))]> o]> st1).

(** The token check of [execute]:
    [execution_token !== executionCodeCollection[userId]?.executionToken]
    is false. *)
Definition token_valid (st : Store) (u tok : string) : bool :=
  match st !! u with
  | Some o => match o !! "executionToken" with
              | Some (UStr s) => bool_decide (tok = s)
              | _ => false
              end
  | None => false
  end.

(** The session's recorded planning token ([.planningToken]). *)
Definition planning_token_of (st : Store) (u : string) : option string :=
  match st !! u with
  | Some o => match o !! "planningToken" with
              | Some (UStr s) => Some s
              | _ => None
              end
  | None => None
  end.

(** [executionCodeCollection[userId]?.[tok]?.code] (null and undefined
    are both [None]). *)
Definition lookup_code (st : Store) (u tok : string) : option string :=
  match st !! u with
  | Some o => match o !! tok with
              | Some (UEntry (ECode c)) => Some c
              | _ => None
              end
  | None => None
  end.

(** ** The codespace collaborators (src/codespaces.ts) *)

Record Codespace := mkCodespace { cs_name : string; cs_web_url : option string }.

(** The result of [listActiveCodespacesForRepo] (it catches its own
    errors and reports them as [success: false]). *)
Inductive Listing :=
| LFailed (msg : string)
| LListed (l : list Codespace).

(** [generateCodespacePortUrl(codespace, port)] *)
Definition generateCodespacePortUrl (web_url : option string) (port : string) : string :=
  match web_url with
  | None | Some EmptyString => "Error generating port URL: Codespace web_url not found"
  | Some u =>
      match js_split ".github.dev" (js_replace_first "https://" "" u) with
      | p0 :: _ :: _ => String.append "https://"
                          (String.append p0 (String.append "-"
                             (String.append port ".app.github.dev")))
      | _ => "Error generating port URL: Invalid codespace URL format"
      end
  end.

(** An approval round trip through the manager [m]: the promise of
    [sendAndWaitForApproval] either settles at once (the guard, or no
    open socket), or settles later as [later] says (a reply through
    [handleMessage], the timeout, or a close/error/disconnect). *)
Definition round_trip (id : string) (m : WSM) (later : Settled) : Settled :=
  match sendAndWaitForApproval id m with
  | (AwThrown e, _) => SRejected e
  | (AwIssued r, m') => match settled_in m'.(trace) r with
                        | Some s => s
                        | None => later
                        end
  end.

(** The stage of [executeCodeOnCodespace] before the acknowledgment:
    the key request [wsManager?.sendAndWaitForTokenResponse] (a method
    that src/approver.ts does not define), the encryption through the
    local API and the POST to the codespace; [encryptMessages] is
    [process.env.ENCRYPT_MESSAGES || true], always truthy, so this stage
    always runs. The statements below leave its outcome with a manager
    open ([PreOk] or a failure); what the code gives is
    [token_request_result]. *)
Inductive PreAck :=
| PreFailed (msg : string)
| PreOk.

(** The outcome of the key request with a manager: [WebSocketManager]
    has no method [sendAndWaitForTokenResponse], so the optional call
    [wsManager?.sendAndWaitForTokenResponse(...)] throws a [TypeError]. *)
Definition token_request_result : PreAck :=
  PreFailed "wsManager?.sendAndWaitForTokenResponse is not a function".

(** What is returned as [webSocketResponse]: the settled reply, or the
    manual-review object. *)
Inductive AckResult :=
| AckReply (v : JsVal)
| AckManual.

Inductive ExecResp :=
| ExSuccess (ack : AckResult)
| ExFailure (msg : string).

(** The acknowledgment stage of [executeCodeOnCodespace]: with a
    manager, the result goes through [sendAndWaitForApproval] and a
    rejection of that promise is caught as a failure; without one, the
    manual-review object is returned. *)
Definition ack_stage (wsManager : option WSM) (later : Settled) : ExecResp :=
  match wsManager with
  | Some m => match round_trip "approval" m later with
              | SResolved v => ExSuccess (AckReply v)
              | SRejected e => ExFailure e
              end
  | None => ExSuccess AckManual
  end.

(** [executeCodeOnCodespace({codespaceUrl, code, token, wsManager})],
    with [aiEvalSettings = false]. Without a manager, the key request
    yields [undefined] and reading its [token] throws. *)
Definition executeCodeOnCodespace (codespaceUrl : string) (code : option string)
    (wsManager : option WSM) (pre : PreAck) (later : Settled) : ExecResp :=
  if bool_decide (codespaceUrl = "") then ExFailure "Codespace URL is required" else
  match code with
  | None | Some EmptyString => ExFailure "Code is required"
  | Some _ =>
      match wsManager with
      | None => ExFailure "Cannot read properties of undefined (reading 'token')"
      | Some _ =>
          match pre with
          | PreFailed e => ExFailure e
          | PreOk => ack_stage wsManager later
          end
      end
  end.

(** ** The [evaluate] tool *)

Inductive EvalResult :=
| EvTooLong
| EvNoWebSocket
| EvNoCodespace
(** the JSON returned after the approval round trip; it carries the
    [executionToken] and the [approvalResponse] *)
| EvResponse (executionToken : string) (approvalResponse : JsVal)
| EvFailed (err : string).

(** [evaluate({planning_token, code, explanation_of_code, ...})]. The
    manager is [wsManager]; [listing] is what [listActiveCodespacesForRepo]
    returns; [draw] the random characters of the new execution token;
    [later] how the approval request settles when it does not settle at
    once. The tool's steps run in sequence on the store (no other tool
    call interleaves). *)
Definition evaluate (planning_token code explanation_of_code : string)
    (wsManager : option WSM) (listing : Listing) (draw : string) (later : Settled)
    (st : Store) : EvalResult * Store :=
  if (400 <? lines code)%nat then (EvTooLong, st) else
  let st0 := match st !! defaultUserId with
             | Some _ => st
             | None => <[defaultUserId := ∅]> st
             end in
  match wsManager with
  | None => (EvNoWebSocket, st0)
  | Some m =>
      match listing with
      | LListed (_ :: _) =>
          let '(currentExecutionToken, st1) := generateExecutionToken draw defaultUserId st0 in
          match round_trip "evaluate-approval" m later with
          | SResolved approvalResponse =>
              let st2 :=
                if is_approved approvalResponse then
                  let o := user_obj st1 defaultUserId in
                  <[defaultUserId := <["executionToken" := UStr currentExecutionToken]>
                                      (<[currentExecutionToken := UEntry (ECode code)]> o)]> st1
                else st1 in
              (EvResponse currentExecutionToken approvalResponse, st2)
          | SRejected e => (EvFailed e, ∅)
          end
      | _ => (EvNoCodespace, st0)
      end
  end.

(** ** The [execute] tool *)

Inductive ExecResult :=
| XTokenError
| XNoWebSocket
| XListFailed (msg : string)
| XNoCodespaces
| XUrlError (url : string)
| XExecFailed (msg : string)
| XExecuted (ack : AckResult).

(** [execute({execution_token})]. *)
Definition execute (execution_token : string) (wsManager : option WSM) (draw : string)
    (listing : Listing) (pre : PreAck) (later : Settled) (st : Store) : ExecResult * Store :=
  if negb (token_valid st defaultUserId execution_token) then (XTokenError, st) else
  match wsManager with
  | None => (XNoWebSocket, st)
  | Some _ =>
      let code := lookup_code st defaultUserId execution_token in
      let st1 := snd (generateExecutionToken draw defaultUserId st) in
      match listing with
      | LFailed msg => (XListFailed msg, st1)
      | LListed [] => (XNoCodespaces, st1)
      | LListed (firstCodespace :: _) =>
          let port3000Url := generateCodespacePortUrl (cs_web_url firstCodespace) "3000" in
          if String.prefix "Error" port3000Url then (XUrlError port3000Url, st1) else
          let st2 := match st1 !! defaultUserId with
                     | Some o => <[defaultUserId := delete execution_token o]> st1
                     | None => st1
                     end in
          match executeCodeOnCodespace port3000Url code wsManager pre later with
          | ExFailure e => (XExecFailed e, st2)
          | ExSuccess a => (XExecuted a, st2)
          end
      end
  end.

(** ** Sample inputs *)

(** A manager whose first socket is open, nothing pending. *)
Definition open_state : WSM := run [IOpen 0] (init true true 5).

Definition demo_cs : Codespace := mkCodespace "cs-1" (Some "https://cs-1.github.dev").

Definition approved_reply : JsVal := interpret_reply (RJson (Some "approved") None).

Definition rejected_reply : JsVal := interpret_reply (RJson (Some "rejected") (Some "too risky")).

End Tokens.

(* ================================================================== *)
(** * 3. The payload cipher (src/encryption.ts) *)
(* ================================================================== *)

Module Crypto.

(** A JavaScript string is its list of UTF-16 code units; a Buffer is its
    list of bytes. Both are lists of [Z]. *)

Inductive result (A : Type) :=
| Ok (a : A)
| Err (e : string).
Arguments Ok {A} a.
Arguments Err {A} e.

(** ** UTF-8 as Node encodes a string ([cipher.update(text, 'utf8')]):
    a surrogate pair is one code point, an unpaired surrogate becomes
    U+FFFD. *)

Definition is_high (u : Z) : bool := (55296 <=? u) && (u <=? 56319).
Definition is_low (u : Z) : bool := (56320 <=? u) && (u <=? 57343).

Fixpoint code_points (s : list Z) : list Z :=
  match s with
  | [] => []
  | u :: rest =>
      if is_high u then
        match rest with
        | v :: rest' =>
            if is_low v
            then (65536 + Z.shiftl (Z.land u 1023) 10 + Z.land v 1023) :: code_points rest'
            else 65533 :: code_points rest
        | [] => [65533]
        end
      else if is_low u then 65533 :: code_points rest
      else u :: code_points rest
  end.

Definition utf8_of_cp (c : Z) : list Z :=
  if c <? 128 then [c]
  else if c <? 2048 then [192 + Z.shiftr c 6; 128 + Z.land c 63]
  else if c <? 65536 then
    [224 + Z.shiftr c 12; 128 + Z.land (Z.shiftr c 6) 63; 128 + Z.land c 63]
  else
    [240 + Z.shiftr c 18; 128 + Z.land (Z.shiftr c 12) 63;
     128 + Z.land (Z.shiftr c 6) 63; 128 + Z.land c 63].

Definition utf8_encode (s : list Z) : list Z := flat_map utf8_of_cp (code_points s).

(** ** UTF-8 as Node decodes it ([decipher.update(..., 'utf8')] and
    [final]): the WHATWG decoder, U+FFFD for each maximal invalid
    subsequence and for a truncated sequence at the end. *)

Record DState := mkD { d_needed : Z; d_seen : Z; d_cp : Z; d_lower : Z; d_upper : Z }.

Definition d_init : DState := mkD 0 0 0 128 191.

(** A byte read with no sequence under way. *)
Definition start_byte (b : Z) : DState * list Z :=
  if b <=? 127 then (d_init, [b])
  else if (194 <=? b) && (b <=? 223) then (mkD 1 0 (Z.land b 31) 128 191, [])
  else if (224 <=? b) && (b <=? 239) then
    (mkD 2 0 (Z.land b 15) (if b =? 224 then 160 else 128) (if b =? 237 then 159 else 191), [])
  else if (240 <=? b) && (b <=? 244) then
    (mkD 3 0 (Z.land b 7) (if b =? 240 then 144 else 128) (if b =? 244 then 143 else 191), [])
  else (d_init, [65533]).

Definition decode_byte (st : DState) (b : Z) : DState * list Z :=
  if d_needed st =? 0 then start_byte b
  else if negb ((d_lower st <=? b) && (b <=? d_upper st)) then
    (* the sequence is cut short: U+FFFD, and the byte is read again *)
    let '(st', out) := start_byte b in (st', 65533 :: out)
  else
    let cp := Z.lor (Z.shiftl (d_cp st) 6) (Z.land b 63) in
    if d_seen st + 1 =? d_needed st then (d_init, [cp])
    else (mkD (d_needed st) (d_seen st + 1) cp 128 191, []).

Fixpoint decode_go (st : DState) (bs : list Z) : list Z :=
  match bs with
  | [] => if d_needed st =? 0 then [] else [65533]
  | b :: bs' => let '(st', out) := decode_byte st b in out ++ decode_go st' bs'
  end.

(** Code points back to UTF-16 code units. *)
Definition utf16_of_cp (c : Z) : list Z :=
  if c <? 65536 then [c]
  else [55296 + Z.shiftr (c - 65536) 10; 56320 + Z.land (c - 65536) 1023].

Definition utf8_decode (bs : list Z) : list Z := flat_map utf16_of_cp (decode_go d_init bs).

(** ** Hex, as [buf.toString('hex')] writes it and [Buffer.from(s, 'hex')]
    reads it: pairs of digits up to the first pair that is not one, a
    trailing odd digit ignored; a two-byte string's code units are read
    through their low byte. *)

Definition hex_digit (n : Z) : Z := if n <? 10 then 48 + n else 87 + n.

Definition hex_encode (bs : list Z) : list Z :=
  flat_map (fun b => [hex_digit (Z.shiftr b 4); hex_digit (Z.land b 15)]) bs.

Definition unhex (c : Z) : option Z :=
  let c := Z.land c 255 in
  if (48 <=? c) && (c <=? 57) then Some (c - 48)
  else if (97 <=? c) && (c <=? 102) then Some (c - 87)
  else if (65 <=? c) && (c <=? 70) then Some (c - 55)
  else None.

Fixpoint hex_decode (s : list Z) : list Z :=
  match s with
  | a :: b :: rest =>
      match unhex a, unhex b with
      | Some x, Some y => (x * 16 + y) :: hex_decode rest
      | _, _ => []
      end
  | _ => []
  end.

(** [s.split(':')] on the code units (':' is 58). *)
Fixpoint js_split_char (sep : Z) (s : list Z) : list (list Z) :=
  match s with
  | [] => [[]]
  | c :: r =>
      let parts := js_split_char sep r in
      if c =? sep then [] :: parts
      else match parts with
           | p :: ps => (c :: p) :: ps
           | [] => [[c]]
           end
  end.

(** ** AES-256 (FIPS-197) on blocks of 16 bytes *)

(** Multiplication by x in GF(2^8) modulo x^8 + x^4 + x^3 + x + 1. *)
Definition xtime (a : Z) : Z :=
  let a := Z.land a 255 in
  if Z.testbit a 7 then Z.lxor (Z.land (Z.shiftl a 1) 255) 27 else Z.shiftl a 1.

Fixpoint gmul_go (n : nat) (a b acc : Z) : Z :=
  match n with
  | O => acc
  | S n' => gmul_go n' (xtime a) (Z.shiftr b 1) (if Z.testbit b 0 then Z.lxor acc a else acc)
  end.

Definition gmul (a b : Z) : Z := gmul_go 8 a b 0.

Definition ginv (x : Z) : Z :=
  match find (fun y => gmul x y =? 1) (map Z.of_nat (seq 1 255)) with
  | Some y => y
  | None => 0
  end.

Definition rotl8 (b : Z) (n : Z) : Z :=
  Z.land (Z.lor (Z.shiftl b n) (Z.shiftr b (8 - n))) 255.

(** The S-box: the inverse in GF(2^8) followed by the affine map. *)
Definition sbox_calc (x : Z) : Z :=
  let i := ginv x in
  Z.lxor (Z.lxor (Z.lxor (Z.lxor (Z.lxor i (rotl8 i 1)) (rotl8 i 2)) (rotl8 i 3)) (rotl8 i 4)) 99.

Definition sbox_table : list Z :=
  Eval vm_compute in map (fun n => sbox_calc (Z.of_nat n)) (seq 0 256).

Definition inv_sbox_table : list Z :=
  Eval vm_compute in
    map (fun n => match find (fun p => snd p =? Z.of_nat n)
                             (combine (map Z.of_nat (seq 0 256)) sbox_table) with
                  | Some p => fst p
                  | None => 0
                  end) (seq 0 256).

Definition sbox (x : Z) : Z := nth (Z.to_nat (Z.land x 255)) sbox_table 0.
Definition inv_sbox (x : Z) : Z := nth (Z.to_nat (Z.land x 255)) inv_sbox_table 0.

Fixpoint xor_bytes (a b : list Z) : list Z :=
  match a, b with
  | x :: a', y :: b' => Z.lxor x y :: xor_bytes a' b'
  | _, _ => []
  end.

(** The state is the 16 input bytes in order; byte [r + 4c] is row [r],
    column [c]. *)
Definition sub_bytes (s : list Z) : list Z := map sbox s.
Definition inv_sub_bytes (s : list Z) : list Z := map inv_sbox s.

Definition shift_src (i : nat) : nat := (i mod 4 + 4 * ((i / 4 + i mod 4) mod 4))%nat.
Definition inv_shift_src (i : nat) : nat := (i mod 4 + 4 * ((i / 4 + 4 - i mod 4) mod 4))%nat.

Definition shift_rows (s : list Z) : list Z := map (fun i => nth (shift_src i) s 0) (seq 0 16).
Definition inv_shift_rows (s : list Z) : list Z := map (fun i => nth (inv_shift_src i) s 0) (seq 0 16).

Definition g2 (x : Z) : Z := xtime x.
Definition g3 (x : Z) : Z := Z.lxor (xtime x) x.
Definition g9 (x : Z) : Z := Z.lxor (xtime (xtime (xtime x))) x.
Definition g11 (x : Z) : Z := Z.lxor (Z.lxor (xtime (xtime (xtime x))) (xtime x)) x.
Definition g13 (x : Z) : Z := Z.lxor (Z.lxor (xtime (xtime (xtime x))) (xtime (xtime x))) x.
Definition g14 (x : Z) : Z := Z.lxor (Z.lxor (xtime (xtime (xtime x))) (xtime (xtime x))) (xtime x).

Definition mix_col (a b c d : Z) : list Z :=
  [Z.lxor (Z.lxor (Z.lxor (g2 a) (g3 b)) c) d;
   Z.lxor (Z.lxor (Z.lxor a (g2 b)) (g3 c)) d;
   Z.lxor (Z.lxor (Z.lxor a b) (g2 c)) (g3 d);
   Z.lxor (Z.lxor (Z.lxor (g3 a) b) c) (g2 d)].

Definition inv_mix_col (a b c d : Z) : list Z :=
  [Z.lxor (Z.lxor (Z.lxor (g14 a) (g11 b)) (g13 c)) (g9 d);
   Z.lxor (Z.lxor (Z.lxor (g9 a) (g14 b)) (g11 c)) (g13 d);
   Z.lxor (Z.lxor (Z.lxor (g13 a) (g9 b)) (g14 c)) (g11 d);
   Z.lxor (Z.lxor (Z.lxor (g11 a) (g13 b)) (g9 c)) (g14 d)].

Fixpoint mix_columns (s : list Z) : list Z :=
  match s with
  | a :: b :: c :: d :: rest => mix_col a b c d ++ mix_columns rest
  | _ => s
  end.

Fixpoint inv_mix_columns (s : list Z) : list Z :=
  match s with
  | a :: b :: c :: d :: rest => inv_mix_col a b c d ++ inv_mix_columns rest
  | _ => s
  end.

Definition add_round_key (k s : list Z) : list Z := xor_bytes s k.

(** Key expansion for Nk = 8, Nr = 14: 60 words of 4 bytes. *)
Definition sub_word (w : list Z) : list Z := map sbox w.
Definition rot_word (w : list Z) : list Z :=
  match w with
  | a :: r => r ++ [a]
  | [] => []
  end.
Definition rcon (i : nat) : list Z := [nth (i - 1) [1; 2; 4; 8; 16; 32; 64] 0; 0; 0; 0].

Fixpoint key_words (n : nat) (key : list Z) : list (list Z) :=
  match n with
  | O => []
  | S n' => firstn 4 key :: key_words n' (skipn 4 key)
  end.

Fixpoint expand_go (n i : nat) (w : list (list Z)) : list (list Z) :=
  match n with
  | O => w
  | S n' =>
      let temp := nth (i - 1) w [] in
      let temp' := if (i mod 8 =? 0)%nat then xor_bytes (sub_word (rot_word temp)) (rcon (i / 8))
                   else if (i mod 8 =? 4)%nat then sub_word temp
                   else temp in
      expand_go n' (S i) (w ++ [xor_bytes (nth (i - 8) w []) temp'])
  end.

Definition expand_key (key : list Z) : list (list Z) := expand_go 52 8 (key_words 8 key).

Definition round_key (w : list (list Z)) (r : nat) : list Z :=
  nth (4 * r) w [] ++ nth (4 * r + 1) w [] ++ nth (4 * r + 2) w [] ++ nth (4 * r + 3) w [].

Definition round_keys (key : list Z) : list (list Z) :=
  let w := expand_key key in map (round_key w) (seq 0 15).

Definition enc_rounds (ks : list (list Z)) (s : list Z) : list Z :=
  fold_left (fun s k => add_round_key k (mix_columns (shift_rows (sub_bytes s)))) ks s.

Definition dec_rounds (ks : list (list Z)) (s : list Z) : list Z :=
  fold_left (fun s k => inv_mix_columns (add_round_key k (inv_sub_bytes (inv_shift_rows s)))) ks s.

(** Cipher: AddRoundKey(0); rounds 1..13; SubBytes, ShiftRows,
    AddRoundKey(14). *)
Definition aes_encrypt_block (key b : list Z) : list Z :=
  let rks := round_keys key in
  let s := add_round_key (nth 0 rks []) b in
  let s := enc_rounds (firstn 13 (tl rks)) s in
  add_round_key (nth 14 rks []) (shift_rows (sub_bytes s)).

(** InvCipher: AddRoundKey(14); rounds 13..1 (InvShiftRows, InvSubBytes,
    AddRoundKey, InvMixColumns); InvShiftRows, InvSubBytes,
    AddRoundKey(0). *)
Definition aes_decrypt_block (key c : list Z) : list Z :=
  let rks := round_keys key in
  let s := add_round_key (nth 14 rks []) c in
  let s := dec_rounds (rev (firstn 13 (tl rks))) s in
  add_round_key (nth 0 rks []) (inv_sub_bytes (inv_shift_rows s)).

(** ** CBC with PKCS#7 padding, as OpenSSL's EVP layer does it *)

Fixpoint chunks (n : nat) (l : list Z) : list (list Z) :=
  match n with
  | O => []
  | S n' => match l with
            | [] => []
            | _ => firstn 16 l :: chunks n' (skipn 16 l)
            end
  end.

Definition blocks (l : list Z) : list (list Z) := chunks (length l) l.

Definition pkcs7_pad (p : list Z) : list Z :=
  let n := (16 - length p mod 16)%nat in p ++ repeat (Z.of_nat n) n.

(** [EVP_DecryptFinal]: the last byte [n] must be 1..16 and the last [n]
    bytes must all be [n]. *)
Definition pkcs7_unpad (p : list Z) : option (list Z) :=
  match rev p with
  | [] => None
  | n :: _ =>
      if (n <=? 0) || (16 <? n) then None
      else if forallb (fun x => x =? n) (firstn (Z.to_nat n) (rev p))
      then Some (firstn (length p - Z.to_nat n) p)
      else None
  end.

(** CBC chaining over a block cipher [E] (encryption) or [D] (its
    inverse). *)
Fixpoint cbc_enc_with (E : list Z -> list Z) (prev : list Z) (bs : list (list Z)) : list Z :=
  match bs with
  | [] => []
  | b :: bs' => let c := E (xor_bytes b prev) in c ++ cbc_enc_with E c bs'
  end.

Fixpoint cbc_dec_with (D : list Z -> list Z) (prev : list Z) (cs : list (list Z)) : list Z :=
  match cs with
  | [] => []
  | c :: cs' => xor_bytes (D c) prev ++ cbc_dec_with D c cs'
  end.

Definition cbc_enc_blocks (key prev : list Z) (bs : list (list Z)) : list Z :=
  cbc_enc_with (aes_encrypt_block key) prev bs.

Definition cbc_dec_blocks (key prev : list Z) (cs : list (list Z)) : list Z :=
  cbc_dec_with (aes_decrypt_block key) prev cs.

(** [createCipheriv('aes-256-cbc', key, iv)]: IV then key length are
    checked. *)
Definition cipheriv_check (key iv : list Z) : result unit :=
  if negb (length iv =? 16)%nat then Err "Invalid initialization vector"
  else if negb (length key =? 32)%nat then Err "Invalid key length"
  else Ok tt.

(** [cipher.update(p) + cipher.final()] *)
Definition cbc_encrypt (key iv p : list Z) : list Z :=
  cbc_enc_blocks key iv (blocks (pkcs7_pad p)).

(** [decipher.update(ct) + decipher.final()] *)
Definition cbc_decrypt (key iv ct : list Z) : result (list Z) :=
  if (length ct =? 0)%nat || negb (length ct mod 16 =? 0)%nat then Err "wrong final block length"
  else match pkcs7_unpad (cbc_dec_blocks key iv (blocks ct)) with
       | Some p => Ok p
       | None => Err "bad decrypt"
       end.

(** ** [encrypt] and [decrypt]

    [ENCRYPTION_KEY] is the Buffer read from the environment; [iv] is
    what [randomBytes(16)] returns. The bodies are the [try] blocks; the
    [catch] blocks replace every error by one message. *)

Definition encrypt_try (ENCRYPTION_KEY iv text : list Z) : result (list Z) :=
  if negb (length ENCRYPTION_KEY =? 32)%nat then Err "Encryption key must be 32 bytes" else
  match cipheriv_check ENCRYPTION_KEY iv with
  | Err e => Err e
  | Ok _ =>
      let encrypted := hex_encode (cbc_encrypt ENCRYPTION_KEY iv (utf8_encode text)) in
      let ivString := hex_encode iv in
      Ok (ivString ++ [58] ++ encrypted)
  end.

Definition encrypt (ENCRYPTION_KEY iv text : list Z) : result (list Z) :=
  match encrypt_try ENCRYPTION_KEY iv text with
  | Ok s => Ok s
  | Err _ => Err "Failed to encrypt data"
  end.

Definition decrypt_try (ENCRYPTION_KEY encryptedText : list Z) : result (list Z) :=
  match js_split_char 58 encryptedText with
  | ivHex :: encrypted :: _ =>
      if (bool_decide (ivHex = [])) || (bool_decide (encrypted = []))
      then Err "Invalid encrypted data format" else
      let iv := hex_decode ivHex in
      match cipheriv_check ENCRYPTION_KEY iv with
      | Err e => Err e
      | Ok _ =>
          (* [update] refuses a hex string of odd length *)
          if Nat.odd (length encrypted) then Err "invalid hex length" else
          match cbc_decrypt ENCRYPTION_KEY iv (hex_decode encrypted) with
          | Ok p => Ok (utf8_decode p)
          | Err e => Err e
          end
      end
  | _ => Err "Invalid encrypted data format"
  end.

Definition decrypt (ENCRYPTION_KEY encryptedText : list Z) : result (list Z) :=
  match decrypt_try ENCRYPTION_KEY encryptedText with
  | Ok s => Ok s
  | Err _ => Err "Failed to decrypt data"
  end.

(** ** Inputs the round trip is stated for *)

(** A JavaScript string that is well-formed UTF-16: code units, every
    high surrogate followed by a low one, no other low surrogate. *)
Fixpoint well_formed (s : list Z) : bool :=
  match s with
  | [] => true
  | u :: r =>
      (0 <=? u) && (u <? 65536) &&
      (if is_high u then
         match r with
         | v :: r' => is_low v && well_formed r'
         | [] => false
         end
       else negb (is_low u) && well_formed r)
  end.

Definition is_byte (b : Z) : bool := (0 <=? b) && (b <? 256).

(** A Buffer of [n] bytes. *)
Definition bytes_of_len (n : nat) (l : list Z) : bool := (length l =? n)%nat && forallb is_byte l.

(** [n] bytes, as a proposition. *)
Definition blk (n : nat) (l : list Z) : Prop := length l = n /\ Forall (fun x => 0 <= x < 256) l.

(** A sample key and IV. *)
Definition demo_key : list Z := map Z.of_nat (seq 0 32).
Definition demo_iv : list Z := repeat 0 16.

End Crypto.

(* ================================================================== *)
(** * 3.1 Codespace and repository listings (src/codespaces.ts) *)
(* ================================================================== *)

Module Listings.

Local Open Scope string_scope.

(** [s.includes(pat)] *)
Definition js_includes (pat s : string) : bool :=
  match String.index 0 pat s with
  | Some _ => true
  | None => false
  end.

(** [s.toLowerCase()] on the ASCII letters (GitHub repository names are
    ASCII: letters, digits, [-], [_] and [.]). *)
Definition lower_char (c : Ascii.ascii) : Ascii.ascii :=
  let n := Ascii.nat_of_ascii c in
  if (65 <=? n)%nat && (n <=? 90)%nat then Ascii.ascii_of_nat (n + 32) else c.

Fixpoint toLowerCase (s : string) : string :=
  match s with
  | EmptyString => EmptyString
  | String c r => String (lower_char c) (toLowerCase r)
  end.

(** *** [findCodespaceExecutorRepos] *)

Record Repository := mkRepository {
  repo_name : string;
  repo_full_name : string;
  repo_owner : string
}.

(** [repo.name.toLowerCase().includes('codespace-executor')] *)
Definition is_executor_repo (r : Repository) : bool :=
  js_includes "codespace-executor" (toLowerCase (repo_name r)).

(** The loop over the organizations: [orgs] lists, per organization, what
    [repos.listForOrg] returns, [None] when the call throws (the [catch]
    around the loop then keeps what was concatenated so far); a failing
    [orgs.listForAuthenticatedUser] is the list [[None]]. *)
Fixpoint collect_org_repos (orgs : list (option (list Repository)))
    (orgRepos : list Repository) : list Repository :=
  match orgs with
  | [] => orgRepos
  | None :: _ => orgRepos
  | Some rs :: orgs' => collect_org_repos orgs' (orgRepos ++ filter is_executor_repo rs)%list
  end.

(** The access test loop: [access i] is whether the [i]-th call of
    [codespaces.repoMachinesForAuthenticatedUser] succeeds. The repositories
    are pushed to the list with access, or to the one without, in order. *)
Fixpoint test_access (access : nat -> bool) (i : nat) (rs : list Repository)
    : list Repository * list Repository :=
  match rs with
  | [] => ([], [])
  | r :: rs' =>
      let '(w, wo) := test_access access (S i) rs' in
      if access i then (r :: w, wo) else (w, r :: wo)
  end.

(** [reposWithCodespaceAccess.some(accessRepo => accessRepo.full_name === repo.full_name)] *)
Definition has_access_entry (withAccess : list Repository) (r : Repository) : bool :=
  existsb (fun a => String.eqb (repo_full_name a) (repo_full_name r)) withAccess.

Record FindResult := mkFindResult {
  repositories : list Repository;
  allFoundRepos : list Repository;
  find_count : nat;
  totalFound : nat;
  userRepos : list Repository;
  orgReposWithAccess : list Repository;
  withAccess : nat;
  withoutAccess : nat
}.

(** [findCodespaceExecutorRepos(token)] once [repos.listForAuthenticatedUser]
    has returned [userList]. *)
Definition findCodespaceExecutorRepos (userList : list Repository)
    (orgs : list (option (list Repository))) (access : nat -> bool) : FindResult :=
  let codespaceRepos := filter is_executor_repo userList in
  let orgRepos := collect_org_repos orgs [] in
  let allCodespaceRepos := (codespaceRepos ++ orgRepos)%list in
  let '(reposWithCodespaceAccess, reposWithoutCodespaceAccess) :=
    test_access access 0 allCodespaceRepos in
  mkFindResult reposWithCodespaceAccess allCodespaceRepos
    (length reposWithCodespaceAccess) (length allCodespaceRepos)
    (filter (has_access_entry reposWithCodespaceAccess) codespaceRepos)
    (filter (has_access_entry reposWithCodespaceAccess) orgRepos)
    (length reposWithCodespaceAccess) (length reposWithoutCodespaceAccess).

(** *** [listActiveCodespacesForRepo] and [listAllCodespacesForRepo] *)

(** A codespace as [codespaces.listForAuthenticatedUser] lists it: its
    [repository?.name] and its [state]. *)
Record CodespaceInfo := mkCodespaceInfo {
  repository_name : option string;
  cs_state : option string
}.

(** The repository names searched: [[repo]] when [repo] is truthy,
    otherwise the names of [findCodespaceExecutorRepos]'s [repositories]
    ([search] is [None] when it did not succeed); [None] is the early
    "No codespace-executor repository found" return. *)
Definition search_names (repo : option string) (search : option (list Repository))
    : option (list string) :=
  let from_search :=
    match search with
    | Some ((_ :: _) as rs) => Some (map repo_name rs)
    | _ => None
    end in
  match repo with
  | Some r => if bool_decide (r = "") then from_search else Some [r]
  | None => from_search
  end.

(** [repoNames.includes(codespace.repository?.name)] *)
Definition in_repos (repoNames : list string) (cs : CodespaceInfo) : bool :=
  match repository_name cs with
  | Some n => existsb (String.eqb n) repoNames
  | None => false
  end.

(** [codespace.state === 'Available'] *)
Definition is_available (cs : CodespaceInfo) : bool :=
  match cs_state cs with
  | Some s => String.eqb s "Available"
  | None => false
  end.

Inductive ActiveResult :=
| ActiveNoRepo
| ActiveNone
| ActiveListed (codespaces : list CodespaceInfo) (count : nat) (searchedRepos : list string).

(** [listActiveCodespacesForRepo({token, repo})] once the list of the
    user's codespaces, [all], has been fetched. *)
Definition listActiveCodespacesForRepo (repo : option string)
    (search : option (list Repository)) (all : list CodespaceInfo) : ActiveResult :=
  match search_names repo search with
  | None => ActiveNoRepo
  | Some repoNames =>
      let matchingCodespaces :=
        filter (fun cs => in_repos repoNames cs && is_available cs) all in
      match matchingCodespaces with
      | [] => ActiveNone
      | _ => ActiveListed matchingCodespaces (length matchingCodespaces) repoNames
      end
  end.

(** [codespace.state || 'Unknown'] *)
Definition state_key (cs : CodespaceInfo) : string :=
  match cs_state cs with
  | Some s => if bool_decide (s = "") then "Unknown" else s
  | None => "Unknown"
  end.

(** One step of the [reduce]: the object [acc] as the list of its
    entries in insertion order (the state names GitHub reports are
    neither array indices nor names of [Object.prototype] members, so
    insertion order is the key order and [acc[state]] starts out
    undefined). *)
Fixpoint add_to_group (k : string) (cs : CodespaceInfo)
    (acc : list (string * list CodespaceInfo)) : list (string * list CodespaceInfo) :=
  match acc with
  | [] => [(k, [cs])]
  | (k', g) :: acc' =>
      if String.eqb k' k then (k', (g ++ [cs])%list) :: acc'
      else (k', g) :: add_to_group k cs acc'
  end.

Definition group_by_state (l : list CodespaceInfo) : list (string * list CodespaceInfo) :=
  fold_left (fun acc cs => add_to_group (state_key cs) cs acc) l [].

Inductive AllResult :=
| AllNoRepo
| AllListed (codespaces : list CodespaceInfo) (count : nat)
    (groupedByState : list (string * list CodespaceInfo))
    (statesSummary : list (string * nat)) (searchedRepos : list string).

(** [listAllCodespacesForRepo({token, repo})] once [all] has been fetched. *)
Definition listAllCodespacesForRepo (repo : option string)
    (search : option (list Repository)) (all : list CodespaceInfo) : AllResult :=
  match search_names repo search with
  | None => AllNoRepo
  | Some repoNames =>
      let matchingCodespaces := filter (in_repos repoNames) all in
      let codespacesGroupedByState := group_by_state matchingCodespaces in
      AllListed matchingCodespaces (length matchingCodespaces) codespacesGroupedByState
        (map (fun '(state, g) => (state, length g)) codespacesGroupedByState) repoNames
  end.

(** The entry of an object kept as an association list. *)
Fixpoint assoc_get {A} (k : string) (l : list (string * A)) : option A :=
  match l with
  | [] => None
  | (k', v) :: l' => if String.eqb k' k then Some v else assoc_get k l'
  end.

(** The codespaces of [l] in state [k] ([state || 'Unknown']), in order;
    [None] when there is none. *)
Definition state_group (k : string) (l : list CodespaceInfo) : option (list CodespaceInfo) :=
  match filter (fun c => String.eqb (state_key c) k) l with
  | [] => None
  | f => Some f
  end.

(** Sample codespaces: two repositories, three states and one codespace
    with no state. *)
Definition cs_a : CodespaceInfo := mkCodespaceInfo (Some "codespace-executor") (Some "Available").
Definition cs_b : CodespaceInfo := mkCodespaceInfo (Some "codespace-executor") (Some "Shutdown").
Definition cs_c : CodespaceInfo := mkCodespaceInfo (Some "other-repo") (Some "Available").
Definition cs_d : CodespaceInfo := mkCodespaceInfo (Some "codespace-executor") None.
Definition cs_e : CodespaceInfo := mkCodespaceInfo (Some "codespace-executor") (Some "Available").

End Listings.

(* ================================================================== *)
(** * 3.2 Script templates (src/kb_shortcuts.ts) *)
(* ================================================================== *)

Module Shortcuts.

Local Open Scope string_scope.
Local Set Warnings "-register-all".

(** A JavaScript value, as far as [validateInputs] looks at it. A number
    is carried by its [String(n)] form; [JFunction] is a function value
    (the methods an object inherits from [Object.prototype]). *)
Inductive JVal :=
| JUndefined
| JNull
| JBool (b : bool)
| JNumber (repr : string)
| JString (s : string)
| JArray (items : list JVal)
| JObject (fields : list (string * JVal))
| JFunction (name : string).

(** [typeof v] *)
Definition js_typeof (v : JVal) : string :=
  match v with
  | JUndefined => "undefined"
  | JBool _ => "boolean"
  | JNumber _ => "number"
  | JString _ => "string"
  | JNull | JArray _ | JObject _ => "object"
  | JFunction _ => "function"
  end.

(** [Array.isArray(v)] *)
Definition isArray (v : JVal) : bool :=
  match v with
  | JArray _ => true
  | _ => false
  end.

(** [String(v)]; an array is joined with [,], its [null] and [undefined]
    elements written as the empty string. *)
Fixpoint js_String (v : JVal) : string :=
  match v with
  | JUndefined => "undefined"
  | JNull => "null"
  | JBool true => "true"
  | JBool false => "false"
  | JNumber r => r
  | JString s => s
  | JArray items =>
      (fix join (l : list JVal) : string :=
         match l with
         | [] => ""
         | x :: l' =>
             let e := match x with
                      | JUndefined | JNull => ""
                      | _ => js_String x
                      end in
             match l' with
             | [] => e
             | _ => String.append e (String.append "," (join l'))
             end
         end) items
  | JObject _ => "[object Object]"
  | JFunction n => String.append "function " (String.append n "() { [native code] }")
  end.

(** The inputs object [Record<string, any>] built by zod: its own
    properties (zod never sets [__proto__] as one), over [Object.prototype]. *)
Definition object_prototype_member (k : string) : option JVal :=
  if bool_decide (k = "__proto__") then Some (JObject [])
  else if bool_decide (k = "constructor") then Some (JFunction "Object")
  else if existsb (String.eqb k)
            ["__defineGetter__"; "__defineSetter__"; "hasOwnProperty";
             "__lookupGetter__"; "__lookupSetter__"; "isPrototypeOf";
             "propertyIsEnumerable"; "toString"; "valueOf"; "toLocaleString"]
  then Some (JFunction k)
  else None.

(** [inputs[key]] *)
Definition js_get (inputs : gmap string JVal) (key : string) : JVal :=
  if bool_decide (key = "__proto__") then JObject [] else
  match inputs !! key with
  | Some v => v
  | None => default JUndefined (object_prototype_member key)
  end.

(** [arr.join(sep)] on strings. *)
Fixpoint js_join (sep : string) (l : list string) : string :=
  match l with
  | [] => ""
  | [x] => x
  | x :: l' => String.append x (String.append sep (js_join sep l'))
  end.

Inductive FieldType := TString | TNumber | TBoolean | TArray | TObject.

(** One entry of a [ScriptInputSchema]: [type], [required] ([undefined]
    is [false]) and [options]. *)
Record FieldSchema := mkFieldSchema {
  f_type : FieldType;
  f_required : bool;
  f_options : option (list string)
}.

(** The [switch (expectedType)] of [validateInputs]. *)
Definition type_errors (key : string) (t : FieldType) (value : JVal) : list string :=
  let err (what : string) :=
    [String.append "Field '" (String.append key (String.append "' must be " what))] in
  match t with
  | TString => if bool_decide (js_typeof value = "string") then [] else err "a string"
  | TNumber => if bool_decide (js_typeof value = "number") then [] else err "a number"
  | TBoolean => if bool_decide (js_typeof value = "boolean") then [] else err "a boolean"
  | TArray => if isArray value then [] else err "an array"
  | TObject =>
      if negb (bool_decide (js_typeof value = "object")) || isArray value
      then err "an object" else []
  end.

(** [if (fieldSchema.options && !fieldSchema.options.includes(String(value)))];
    an empty array is truthy. *)
Definition option_errors (key : string) (f : FieldSchema) (value : JVal) : list string :=
  match f_options f with
  | Some opts =>
      if existsb (String.eqb (js_String value)) opts then []
      else [String.append "Field '" (String.append key
              (String.append "' must be one of: " (js_join ", " opts)))]
  | None => []
  end.

(** [v === undefined || v === null] *)
Definition nullish (v : JVal) : bool :=
  match v with
  | JUndefined | JNull => true
  | _ => false
  end.

(** The errors pushed by one iteration of the loop of [validateInputs]. *)
Definition field_errors (inputs : gmap string JVal) (entry : string * FieldSchema) : list string :=
  let '(key, fieldSchema) := entry in
  if f_required fieldSchema && nullish (js_get inputs key) then
    [String.append "Required field '" (String.append key "' is missing")]
  else if negb (nullish (js_get inputs key)) then
    let value := js_get inputs key in
    (type_errors key (f_type fieldSchema) value ++ option_errors key fieldSchema value)%list
  else [].

(** [validateInputs(inputs, schema)]; [schema] is [Object.entries(schema)]. *)
Definition validateInputs (inputs : gmap string JVal) (schema : list (string * FieldSchema))
    : bool * list string :=
  let errors := fold_left (fun errs e => (errs ++ field_errors inputs e)%list) schema [] in
  (Nat.eqb (length errors) 0, errors).

(** *** [extractVariables]: the regular expression [/\{\{\s*(\w+)\s*\}\}/g]

    A string is a list of UTF-16 code units below 256. [\s] is the
    JavaScript white space among them, [\w] is [[A-Za-z0-9_]]. [\s] and
    [\w] share no character and neither contains ['}'], so the greedy
    match never backtracks: at a position the expression matches exactly
    when [match_at] returns a result. *)

Definition is_space (c : Ascii.ascii) : bool :=
  let n := Ascii.nat_of_ascii c in
  ((9 <=? n)%nat && (n <=? 13)%nat) || (n =? 32)%nat || (n =? 160)%nat.

Definition is_word_char (c : Ascii.ascii) : bool :=
  let n := Ascii.nat_of_ascii c in
  ((48 <=? n)%nat && (n <=? 57)%nat) || ((65 <=? n)%nat && (n <=? 90)%nat) ||
  ((97 <=? n)%nat && (n <=? 122)%nat) || (n =? 95)%nat.

Fixpoint skip_spaces (s : string) : string :=
  match s with
  | String c r => if is_space c then skip_spaces r else s
  | EmptyString => EmptyString
  end.

Fixpoint take_word (s : string) : string * string :=
  match s with
  | String c r =>
      if is_word_char c then let '(w, rest) := take_word r in (String c w, rest)
      else (EmptyString, s)
  | EmptyString => (EmptyString, EmptyString)
  end.

(** The match at the start of [s]: the group [(\w+)] and what follows the
    match. *)
Definition match_at (s : string) : option (string * string) :=
  match s with
  | String c1 (String c2 r) =>
      if (Ascii.nat_of_ascii c1 =? 123)%nat && (Ascii.nat_of_ascii c2 =? 123)%nat then
        let '(w, r2) := take_word (skip_spaces r) in
        match w, skip_spaces r2 with
        | String _ _, String c3 (String c4 r3) =>
            if (Ascii.nat_of_ascii c3 =? 125)%nat && (Ascii.nat_of_ascii c4 =? 125)%nat
            then Some (w, r3) else None
        | _, _ => None
        end
      else None
  | _ => None
  end.

(** The [while ((match = regex.exec(script)) !== null)] loop: [exec]
    matches from [lastIndex] on; after a match [lastIndex] is its end. *)
Fixpoint extract_go (fuel : nat) (s : string) (variables : list string) : list string :=
  match fuel with
  | O => variables
  | S f =>
      match s with
      | EmptyString => variables
      | String _ r =>
          match match_at s with
          | Some (name, rest) =>
              extract_go f rest
                (if existsb (String.eqb name) variables then variables else (variables ++ [name])%list)
          | None => extract_go f r variables
          end
      end
  end.

(** [extractVariables(script)]: every iteration consumes at least one
    character, so [length script + 1] iterations reach the end. *)
Definition extractVariables (script : string) : list string :=
  extract_go (S (String.length script)) script [].

(** A non-empty run of [\w] characters. *)
Fixpoint word (s : string) : bool :=
  match s with
  | EmptyString => false
  | String c EmptyString => is_word_char c
  | String c r => is_word_char c && word r
  end.

End Shortcuts.

(* ================================================================== *)
(** * 3.3 The [evaluate_using_shortcut] tool (src/index.ts) *)
(* ================================================================== *)

Module ShortcutTool.
Import Approver Tokens.

Local Open Scope string_scope.




End ShortcutTool.

(* ================================================================== *)
(** * 4. Proofs about the connection manager *)
(* ================================================================== *)

Module ApproverFacts.
Import Approver.
Local Open Scope string_scope.

Lemma settled_in_app (tr1 tr2 : list Act) (r : nat) :
  settled_in (tr1 ++ tr2) r =
  match settled_in tr1 r with Some s => Some s | None => settled_in tr2 r end.
Proof.
  induction tr1 as [|a tr1 IH]; simpl; [reflexivity|].
  destruct a as [s w|r' x]; [exact IH|].
  destruct (Nat.eq_dec r r'); [reflexivity|exact IH].
Qed.

Lemma inv_frame (m m' : WSM) :
  m'.(next_req) = m.(next_req) -> m'.(pendingResponse) = m.(pendingResponse) ->
  m'.(trace) = m.(trace) -> single_inv m -> single_inv m'.
Proof. intros E1 E2 E3 H r. rewrite E1, E2, E3. apply H. Qed.

Ltac frame := eapply inv_frame; [reflexivity|reflexivity|reflexivity|assumption].

Lemma inv_transmit (m : WSM) (s : nat) (w : Wire) :
  single_inv m -> single_inv (emit (ATransmit s w) m).
Proof.
  intros H r Hr Hs. simpl in *. rewrite settled_in_app in Hs.
  destruct (settled_in (trace m) r) eqn:E; [discriminate|]. now apply H.
Qed.

Lemma inv_flush (q : list Wire) (m : WSM) : single_inv m -> single_inv (flush q m).
Proof.
  revert m; induction q as [|x q IH]; intros m H; simpl; [exact H|].
  apply IH. destruct (open_socket m); [now apply inv_transmit|exact H].
Qed.

Lemma inv_settle (m : WSM) (x : Settled) : single_inv m -> single_inv (settle_pending x m).
Proof.
  intros H. unfold settle_pending. destruct (pendingResponse m) as [r0|] eqn:P; [|exact H].
  intros r Hr Hs. simpl in *. rewrite settled_in_app in Hs.
  destruct (settled_in (trace m) r) eqn:E; [discriminate|].
  simpl in Hs. destruct (Nat.eq_dec r r0); [discriminate|].
  specialize (H r Hr E). congruence.
Qed.

Lemma inv_schedule (m : WSM) : single_inv m -> single_inv (scheduleReconnect m).
Proof. intros H. unfold scheduleReconnect. destruct (_ <=? _)%nat; [exact H|frame]. Qed.

Lemma inv_connect (m : WSM) : single_inv m -> single_inv (connect m).
Proof.
  intros H. unfold connect. destruct (url_valid m); [frame|].
  destruct (autoReconnect m); [now apply inv_schedule|exact H].
Qed.

Lemma inv_run_stmts (body : list (WSM -> WSM)) (m : WSM) :
  Forall (fun f => forall m', single_inv m' -> single_inv (f m')) body ->
  single_inv m -> single_inv (run_stmts body m).
Proof.
  unfold run_stmts. revert m; induction body as [|f body IH]; intros m Hb H; simpl;
    [exact H|]. inversion Hb; subst. apply IH; auto.
Qed.

Lemma inv_disconnect (m : WSM) : single_inv m -> single_inv (disconnect m).
Proof.
  apply inv_run_stmts. repeat constructor.
  - intros m' H. frame.
  - intros m' H. destruct (reconnectTimer m'); [frame|exact H].
  - intros m' H. now apply inv_settle.
  - intros m' H. destruct (ws m') as [w|]; [|exact H].
    assert (single_inv (close_socket w m')).
    { unfold close_socket. destruct (_ !! w) as [[]|]; try exact H; frame. }
    frame.
Qed.

Lemma inv_await (m : WSM) (id : string) :
  single_inv m -> single_inv (snd (sendAndWaitForApproval id m)).
Proof.
  intros H. unfold sendAndWaitForApproval.
  destruct (pendingResponse m) as [r0|] eqn:P; [exact H|].
  assert (Hold : forall r, (r < next_req m)%nat -> settled_in (trace m) r <> None).
  { intros r Hr Hs. specialize (H r Hr Hs). congruence. }
  destruct (open_socket _) eqn:O; simpl.
  - intros r Hr Hs. simpl in *. rewrite settled_in_app in Hs.
    destruct (settled_in (trace m) r) eqn:E; [discriminate|].
    destruct (Nat.eq_dec r (next_req m)) as [->|Hn]; [reflexivity|].
    exfalso. apply (Hold r); [lia|exact E].
  - intros r Hr Hs. simpl in *. rewrite settled_in_app in Hs.
    destruct (settled_in (trace m) r) eqn:E; [discriminate|].
    simpl in Hs. destruct (Nat.eq_dec r (next_req m)); [discriminate|].
    exfalso. apply (Hold r); [lia|exact E].
Qed.

Lemma inv_step (i : Input) (m : WSM) : single_inv m -> single_inv (step i m).
Proof.
  intros H. destruct i; simpl.
  - unfold send. destruct (open_socket m); simpl; [now apply inv_transmit|frame].
  - now apply inv_await.
  - now apply inv_disconnect.
  - unfold reconnect. apply inv_connect.
    assert (single_inv (disconnect m)) by now apply inv_disconnect. frame.
  - unfold flushQueue. apply inv_flush. frame.
  - unfold run_stmts; simpl. destruct (autoReconnect _).
    + apply inv_schedule, inv_settle. frame.
    + apply inv_settle. frame.
  - unfold run_stmts; simpl. apply inv_settle. frame.
  - unfold handleMessage. destruct (pendingResponse m); [now apply inv_settle|exact H].
  - unfold on_timeout. destruct (pendingResponse m) as [r'|] eqn:P; [|exact H].
    destruct (Nat.eq_dec r r') as [<-|]; [|exact H].
    intros x Hx Hs. simpl in *. rewrite settled_in_app in Hs.
    destruct (settled_in (trace m) x) eqn:E; [discriminate|].
    simpl in Hs. destruct (Nat.eq_dec x r); [discriminate|].
    specialize (H x Hx E). congruence.
  - unfold on_fire. destruct (decide _); [|exact H]. apply inv_connect. frame.
Qed.

Lemma inv_run (is : list Input) (m : WSM) : single_inv m -> single_inv (run is m).
Proof. revert m; induction is; intros m H; simpl; [exact H|]. apply IHis, inv_step, H. Qed.

Lemma inv_init (u a : bool) (n : nat) : single_inv (init u a n).
Proof.
  apply inv_connect. intros r Hr. simpl in Hr. lia.
Qed.

Lemma inv_reachable (m : WSM) : reachable m -> single_inv m.
Proof. intros (is & u & a & n & ->). apply inv_run, inv_init. Qed.

(** On an open event for the socket [this.ws] points to, the queue goes
    out in order. *)
Lemma flush_current (q : list Wire) (m : WSM) (s : nat) :
  open_socket m = Some s ->
  flush q m = mkWSM m.(url_valid) m.(autoReconnect) m.(maxReconnectAttempts) m.(ws)
                m.(sockets) m.(messageQueue) m.(reconnectAttempts) m.(reconnectTimer)
                m.(timers) m.(next_timer) m.(pendingResponse) m.(next_req)
                (m.(trace) ++ map (ATransmit s) q).
Proof.
  revert m; induction q as [|x q IH]; intros m O; simpl.
  - destruct m; simpl; rewrite app_nil_r; reflexivity.
  - rewrite O. rewrite IH by (unfold open_socket in *; simpl; exact O).
    simpl. rewrite <- app_assoc. reflexivity.
Qed.

(** C4: in every reachable state, at most one request is in flight; and
    while a request is pending, a second [sendAndWaitForApproval] is
    rejected at once with "Already waiting for a response" and leaves the
    manager unchanged: nothing is written to a socket, nothing is queued. *)
Theorem single_flight (m : WSM) (id : string) :
  reachable m ->
  (forall r, m.(pendingResponse) = Some r ->
             sendAndWaitForApproval id m = (AwThrown "Already waiting for a response", m)) /\
  (forall r1 r2, in_flight m r1 -> in_flight m r2 -> r1 = r2).
Proof.
  intros Hr. split.
  - intros r P. unfold sendAndWaitForApproval. rewrite P. reflexivity.
  - intros r1 r2 [H1 S1] [H2 S2]. apply inv_reachable in Hr.
    pose proof (Hr r1 H1 S1) as E1. pose proof (Hr r2 H2 S2) as E2.
    rewrite E1 in E2. now injection E2.
Qed.

Lemma single_flight_witness :
  reachable awaiting_state /\ awaiting_state.(pendingResponse) = Some 0%nat /\
  sendAndWaitForApproval "req-2" awaiting_state =
    (AwThrown "Already waiting for a response", awaiting_state).
Proof.
  assert (Hr : reachable awaiting_state)
    by (exists [IOpen 0; IAwait "req-1"], true, true, 5%nat; reflexivity).
  split; [exact Hr|]. split; [reflexivity|].
  exact (proj1 (single_flight awaiting_state "req-2" Hr) 0%nat eq_refl).
Defined.




(** C9 (failing run): a message sent while the first socket is still
    connecting is queued; [reconnect()] then closes that socket and opens
    a second one; the ['close'] handler of the first socket, still
    registered, sets [this.ws = null]; when the second socket opens,
    [flushQueue] shifts the message out and drops it: the queue is empty
    and nothing was ever written. *)
Theorem stale_close_drops_queued :
  let pre := run [ISend 1 "m1" "t"; IReconnect; IClose 0] (init true true 5) in
  valid_run [ISend 1 "m1" "t"; IReconnect; IClose 0; IOpen 1] (init true true 5) = true /\
  pre.(messageQueue) = [WItem 1 "t" "m1"] /\
  pre.(sockets) = [CLOSED; CONNECTING] /\
  (step (IOpen 1) pre).(messageQueue) = [] /\
  (step (IOpen 1) pre).(trace) = [].
Proof. vm_compute. repeat split. Qed.

End ApproverFacts.

(* ================================================================== *)
(** * 5. Proofs about the token store and the tools *)
(* ================================================================== *)

Module TokensFacts.
Import Approver Tokens.
Local Open Scope string_scope.

Lemma gen_lookup (draw u : string) (st : Store) :
  snd (generateExecutionToken draw u st) !! u =
  Some (<[draw := UEntry EEmpty]> (<["executionToken" := UStr draw]> (user_obj st u))).
Proof. unfold generateExecutionToken; simpl. by simplify_map_eq. Qed.

(** Issuing a token makes every other token fail the check. *)
Lemma gen_supersedes (draw u prev : string) (st : Store) :
  prev <> draw -> token_valid (snd (generateExecutionToken draw u st)) u prev = false.
Proof.
  intros Hn. unfold token_valid. rewrite gen_lookup.
  destruct (decide (draw = "executionToken")) as [->|Hd]; [by simplify_map_eq|].
  rewrite lookup_insert_ne by congruence. simplify_map_eq. by apply bool_decide_eq_false.
Qed.

Lemma gen_valid (draw u : string) (st : Store) :
  draw <> "executionToken" -> token_valid (snd (generateExecutionToken draw u st)) u draw = true.
Proof.
  intros Hd. unfold token_valid. rewrite gen_lookup.
  rewrite lookup_insert_ne by congruence. simplify_map_eq. by apply bool_decide_eq_true.
Qed.

(** Deleting the token's own key keeps it failing the check. *)
Lemma delete_keeps_invalid (T u : string) (st : Store) (o : UserObj) :
  st !! u = Some o -> token_valid st u T = false ->
  token_valid (<[u := delete T o]> st) u T = false.
Proof.
  unfold token_valid. intros Ho Hv. rewrite Ho in Hv. simplify_map_eq.
  destruct (decide (T = "executionToken")) as [->|Hn]; [by rewrite lookup_delete|].
  rewrite lookup_delete_ne by congruence. exact Hv.
Qed.

(** The store after an [execute] that passed the token check, with a
    manager: the new token's store, with the old token's key deleted
    when the codespace stage was reached. *)
Lemma execute_store_invalid (T draw : string) (m : WSM) (listing : Listing)
    (pre : PreAck) (later : Settled) (st : Store) :
  T <> draw ->
  token_valid (snd (execute T (Some m) draw listing pre later st)) defaultUserId T = false.
Proof.
  intros Hn. unfold execute.
  destruct (token_valid st defaultUserId T) eqn:V; cbn [negb]; [|exact V].
  pose proof (gen_supersedes draw defaultUserId T st Hn) as G.
  pose proof (gen_lookup draw defaultUserId st) as L.
  set (st1 := snd (generateExecutionToken draw defaultUserId st)) in *.
  destruct listing as [msg|[|c rest]]; try exact G.
  destruct (String.prefix _ _); [exact G|].
  rewrite L.
  assert (D : token_valid (<[defaultUserId := delete T
            (<[draw := UEntry EEmpty]> (<["executionToken" := UStr draw]>
              (user_obj st defaultUserId)))]> st1) defaultUserId T = false)
    by (apply delete_keeps_invalid; assumption).
  destruct (executeCodeOnCodespace _ _ _ _ _); exact D.
Qed.

(** C3: an execution token is single-use and only the latest one is
    valid. An [execute T] that passes the token check with a manager
    issues a fresh token (and deletes [T]'s entry once the codespace
    stage is reached), so any second [execute T] fails with the token
    error, whatever its other inputs; and issuing a token for a session
    makes every other token of that session fail the check. *)
Theorem execution_token_single_use (T draw : string) (m : WSM) (listing : Listing)
    (pre : PreAck) (later : Settled) (st : Store)
    (wsManager' : option WSM) (draw' : string) (listing' : Listing) (pre' : PreAck)
    (later' : Settled) :
  T <> draw ->
  fst (execute T wsManager' draw' listing' pre' later'
         (snd (execute T (Some m) draw listing pre later st))) = XTokenError /\
  (forall u prev t st', prev <> t ->
     token_valid (snd (generateExecutionToken t u st')) u prev = false).
Proof.
  intros Hn. split.
  - unfold execute at 1. rewrite execute_store_invalid by exact Hn. reflexivity.
  - intros u prev t st' Hp. now apply gen_supersedes.
Qed.

Lemma execution_token_single_use_witness :
  "ABCDEFGHIJKLMNOP" <> "QRSTUVWXYZabcdef" /\
  fst (execute "ABCDEFGHIJKLMNOP" (Some open_state) "ghijklmnopqrstuv" (LListed [demo_cs])
         PreOk (SResolved approved_reply)
         (snd (execute "ABCDEFGHIJKLMNOP" (Some open_state) "QRSTUVWXYZabcdef"
                 (LListed [demo_cs]) PreOk (SResolved approved_reply)
                 (snd (evaluate "plan_x" "console.log(1)" "prints 1" (Some open_state)
                         (LListed [demo_cs]) "ABCDEFGHIJKLMNOP" (SResolved approved_reply) ∅)))))
    = XTokenError.
Proof.
  assert (H : "ABCDEFGHIJKLMNOP" <> "QRSTUVWXYZabcdef") by discriminate.
  split; [exact H|].
  exact (proj1 (execution_token_single_use "ABCDEFGHIJKLMNOP" "QRSTUVWXYZabcdef" open_state
    (LListed [demo_cs]) PreOk (SResolved approved_reply) _ (Some open_state)
    "ghijklmnopqrstuv" (LListed [demo_cs]) PreOk (SResolved approved_reply) H)).
Defined.

(** C1 (failing run): [evaluate] never reads [planning_token]: its
    result and its store are the same whatever token is passed. A token
    that was never issued is accepted on an empty store, and a token
    issued by [plan] is accepted again after a successful [evaluate]. *)
Theorem evaluate_ignores_planning_token :
  (forall p1 p2 code expl w listing draw later st,
     evaluate p1 code expl w listing draw later st =
     evaluate p2 code expl w listing draw later st) /\
  planning_token_of ∅ defaultUserId = None /\
  fst (evaluate "plan_never_issued" "console.log(1)" "prints 1" (Some open_state)
         (LListed [demo_cs]) "ABCDEFGHIJKLMNOP" (SResolved approved_reply) ∅)
    = EvResponse "ABCDEFGHIJKLMNOP" approved_reply /\
  (let '(T1, st0) := plan "abcdefghijklmnop" (true, true) ∅ in
   let st1 := snd (evaluate T1 "console.log(1)" "prints 1" (Some open_state)
                     (LListed [demo_cs]) "ABCDEFGHIJKLMNOP" (SResolved approved_reply) st0) in
   planning_token_of st0 defaultUserId = Some T1 /\
   fst (evaluate T1 "console.log(2)" "prints 2" (Some open_state)
          (LListed [demo_cs]) "QRSTUVWXYZabcdef" (SResolved approved_reply) st1)
     = EvResponse "QRSTUVWXYZabcdef" approved_reply).
Proof.
  split; [intros; reflexivity|]. vm_compute. repeat split.
Qed.

Lemma evaluate_unfold (p code expl : string) (m : WSM) (cs : Codespace)
    (rest : list Codespace) (draw : string) (later : Settled) (st : Store) :
  (lines code <= 400)%nat ->
  let st0 := match st !! defaultUserId with
             | Some _ => st
             | None => <[defaultUserId := ∅]> st
             end in
  let st1 := snd (generateExecutionToken draw defaultUserId st0) in
  evaluate p code expl (Some m) (LListed (cs :: rest)) draw later st =
  match round_trip "evaluate-approval" m later with
  | SResolved v =>
      (EvResponse draw v,
       if is_approved v then
         <[defaultUserId := <["executionToken" := UStr draw]>
                              (<[draw := UEntry (ECode code)]> (user_obj st1 defaultUserId))]> st1
       else st1)
  | SRejected e => (EvFailed e, ∅)
  end.
Proof.
  intros Hl. unfold evaluate.
  replace (400 <? lines code)%nat with false by (symmetry; apply Nat.ltb_ge; exact Hl).
  reflexivity.
Qed.

Lemma length16_not_field (draw : string) :
  String.length draw = 16%nat -> draw <> "executionToken".
Proof. intros Hl ->. discriminate. Qed.

(** C2 (failing run): a reply that is not an approval still leaves the
    token minted before the round trip as the session's valid execution
    token, and [evaluate] returns it. That token has no code, so a later
    [execute] of it passes the token check and fails only at "Code is
    required", not with the token error. *)
Theorem evaluate_unapproved_keeps_token (p code expl : string) (m : WSM) (cs : Codespace)
    (rest : list Codespace) (draw : string) (later : Settled) (v : JsVal) (st : Store) :
  (lines code <= 400)%nat -> String.length draw = 16%nat ->
  round_trip "evaluate-approval" m later = SResolved v -> is_approved v = false ->
  let '(res, st') := evaluate p code expl (Some m) (LListed (cs :: rest)) draw later st in
  res = EvResponse draw v /\ token_valid st' defaultUserId draw = true /\
  lookup_code st' defaultUserId draw = None /\
  (forall m' draw' pre later',
     fst (execute draw (Some m') draw' (LListed [demo_cs]) pre later' st')
       = XExecFailed "Code is required").
Proof.
  intros Hl Hd Hr Ha. rewrite (evaluate_unfold p code expl m cs rest draw later st Hl).
  rewrite Hr, Ha. cbv zeta.
  set (st1 := snd (generateExecutionToken draw defaultUserId _)).
  assert (V : token_valid st1 defaultUserId draw = true)
    by (apply gen_valid, length16_not_field, Hd).
  assert (C : lookup_code st1 defaultUserId draw = None).
  { unfold lookup_code, st1. rewrite gen_lookup. by simplify_map_eq. }
  split; [reflexivity|]. split; [exact V|]. split; [exact C|].
  intros m' draw' pre later'. unfold execute. rewrite V, C. reflexivity.
Qed.

Lemma evaluate_unapproved_keeps_token_witness :
  let '(res, st') := evaluate "plan_x" "console.log(1)" "prints 1" (Some open_state)
                       (LListed [demo_cs]) "ABCDEFGHIJKLMNOP" (SResolved rejected_reply) ∅ in
  res = EvResponse "ABCDEFGHIJKLMNOP" rejected_reply /\
  token_valid st' defaultUserId "ABCDEFGHIJKLMNOP" = true /\
  lookup_code st' defaultUserId "ABCDEFGHIJKLMNOP" = None /\
  (forall m' draw' pre later',
     fst (execute "ABCDEFGHIJKLMNOP" (Some m') draw' (LListed [demo_cs]) pre later' st')
       = XExecFailed "Code is required").
Proof.
  apply (evaluate_unapproved_keeps_token "plan_x" "console.log(1)" "prints 1" open_state
           demo_cs [] "ABCDEFGHIJKLMNOP" (SResolved rejected_reply) rejected_reply ∅);
    vm_compute; first [reflexivity | lia].
Defined.

(** C10: when the approval round trip of [evaluate] rejects (a timeout,
    a transport error, a disconnect, or the guard of a request already
    pending), the whole store is replaced by [{}]: afterwards no session
    has an execution token that passes [execute]'s check, a recorded
    planning token, or stored code. *)
Theorem evaluate_error_resets_store (p code expl : string) (m : WSM) (cs : Codespace)
    (rest : list Codespace) (draw : string) (later : Settled) (e : string) (st : Store) :
  (lines code <= 400)%nat -> round_trip "evaluate-approval" m later = SRejected e ->
  let '(res, st') := evaluate p code expl (Some m) (LListed (cs :: rest)) draw later st in
  res = EvFailed e /\ st' = ∅ /\
  (forall u t, token_valid st' u t = false /\ planning_token_of st' u = None /\
               lookup_code st' u t = None).
Proof.
  intros Hl Hr. rewrite (evaluate_unfold p code expl m cs rest draw later st Hl), Hr.
  split; [reflexivity|]. split; [reflexivity|]. intros u t.
  unfold token_valid, planning_token_of, lookup_code. rewrite lookup_empty. auto.
Qed.

Lemma evaluate_error_resets_store_witness :
  let '(res, st') := evaluate "plan_x" "console.log(1)" "prints 1" (Some open_state)
                       (LListed [demo_cs]) "ABCDEFGHIJKLMNOP" (SRejected "Response timeout")
                       (snd (plan "abcdefghijklmnop" (true, true) ∅)) in
  res = EvFailed "Response timeout" /\ st' = ∅ /\
  (forall u t, token_valid st' u t = false /\ planning_token_of st' u = None /\
               lookup_code st' u t = None).
Proof.
  apply (evaluate_error_resets_store "plan_x" "console.log(1)" "prints 1" open_state demo_cs []
           "ABCDEFGHIJKLMNOP" (SRejected "Response timeout") "Response timeout"
           (snd (plan "abcdefghijklmnop" (true, true) ∅)));
    vm_compute; first [reflexivity | lia].
Defined.

Lemma exec_with_manager_not_manual (url : string) (code : option string) (m : WSM)
    (pre : PreAck) (later : Settled) :
  executeCodeOnCodespace url code (Some m) pre later <> ExSuccess AckManual.
Proof.
  unfold executeCodeOnCodespace, ack_stage.
  destruct (bool_decide _); [discriminate|].
  destruct code as [[|a c]|]; try discriminate.
  destruct pre; [discriminate|].
  destruct (round_trip _ _ _); discriminate.
Qed.

(** C8: with a valid execution token, [execute] never returns the
    manual-review result, whatever the manager, the listing, the outcome
    of the key request and the acknowledgment. With no manager it fails at
    its own check with the WebSocket error, so the [!wsManager] branch of
    [executeCodeOnCodespace] that would give that result is never reached;
    with a manager, [executeCodeOnCodespace] either fails or reports the
    outcome of [sendAndWaitForApproval]. *)
Theorem execute_never_manual (T draw : string) (w : option WSM) (listing : Listing)
    (pre : PreAck) (later : Settled) (st : Store) :
  token_valid st defaultUserId T = true ->
  fst (execute T None draw listing pre later st) = XNoWebSocket /\
  fst (execute T w draw listing pre later st) <> XExecuted AckManual.
Proof.
  intros V. unfold execute. rewrite V. cbn [negb]. split; [reflexivity|].
  destruct w as [m|]; [|discriminate].
  destruct listing as [msg|[|c rest]]; try discriminate.
  destruct (String.prefix _ _); [discriminate|].
  destruct (executeCodeOnCodespace _ _ _ _ _) as [a|msg] eqn:X; [|discriminate].
  cbn. intros [= ->]. exact (exec_with_manager_not_manual _ _ _ _ _ X).
Qed.

Lemma execute_never_manual_witness :
  let st := snd (evaluate "plan_x" "console.log(1)" "prints 1" (Some open_state)
                   (LListed [demo_cs]) "ABCDEFGHIJKLMNOP" (SResolved approved_reply) ∅) in
  let m := run [IClose 0] open_state in
  token_valid st defaultUserId "ABCDEFGHIJKLMNOP" = true /\ open_socket m = None /\
  fst (execute "ABCDEFGHIJKLMNOP" (Some m) "QRSTUVWXYZabcdef" (LListed [demo_cs])
         token_request_result (SResolved approved_reply) st)
    = XExecFailed "wsManager?.sendAndWaitForTokenResponse is not a function" /\
  fst (execute "ABCDEFGHIJKLMNOP" None "QRSTUVWXYZabcdef" (LListed [demo_cs])
         token_request_result (SResolved approved_reply) st) = XNoWebSocket /\
  fst (execute "ABCDEFGHIJKLMNOP" (Some m) "QRSTUVWXYZabcdef" (LListed [demo_cs])
         token_request_result (SResolved approved_reply) st) <> XExecuted AckManual.
Proof.
  intros st m.
  assert (V : token_valid st defaultUserId "ABCDEFGHIJKLMNOP" = true)
    by (vm_compute; reflexivity).
  split; [exact V|].
  split; [vm_compute; reflexivity|].
  split; [vm_compute; reflexivity|].
  exact (execute_never_manual "ABCDEFGHIJKLMNOP" "QRSTUVWXYZabcdef" (Some m)
           (LListed [demo_cs]) token_request_result (SResolved approved_reply) st V).
Defined.

End TokensFacts.

(* ================================================================== *)
(** * 6. Proofs about the payload cipher *)
(* ================================================================== *)

Module CryptoFacts.
Import Crypto.

Lemma cipheriv_check_bad_key (K iv : list Z) :
  length K <> 32%nat -> exists e, cipheriv_check K iv = Err e.
Proof.
  intros HK. unfold cipheriv_check.
  destruct (negb (length iv =? 16)%nat); [eexists; reflexivity|].
  replace (length K =? 32)%nat with false by (symmetry; apply Nat.eqb_neq; exact HK).
  eexists; reflexivity.
Qed.

Lemma decrypt_try_bad_key (K s : list Z) :
  length K <> 32%nat -> exists e, decrypt_try K s = Err e.
Proof.
  intros HK. unfold decrypt_try.
  destruct (js_split_char 58 s) as [|ivHex [|encrypted rest]]; try (eexists; reflexivity).
  destruct (_ || _); [eexists; reflexivity|].
  destruct (cipheriv_check_bad_key K (hex_decode ivHex) HK) as [e He].
  rewrite He. eexists; reflexivity.
Qed.

(** ** Finite checks over bytes *)

Lemma byte_enum (P : Z -> bool) :
  forallb P (map Z.of_nat (seq 0 256)) = true -> forall x, 0 <= x < 256 -> P x = true.
Proof.
  intros H x Hx. rewrite forallb_forall in H. apply H, in_map_iff.
  exists (Z.to_nat x). split; [rewrite Z2Nat.id; lia|]. apply in_seq. lia.
Qed.

Lemma byte_enum2 (P : Z -> Z -> bool) :
  forallb (fun x => forallb (P x) (map Z.of_nat (seq 0 256))) (map Z.of_nat (seq 0 256)) = true ->
  forall x y, 0 <= x < 256 -> 0 <= y < 256 -> P x y = true.
Proof.
  intros H x y Hx Hy. apply (byte_enum (fun y => P x y)); [|exact Hy].
  exact (byte_enum (fun x => forallb (P x) (map Z.of_nat (seq 0 256))) H x Hx).
Qed.

Lemma land255 (x : Z) : Z.land x 255 = x mod 256.
Proof. change 255 with (Z.ones 8). rewrite Z.land_ones by lia. reflexivity. Qed.

Lemma land255_byte (x : Z) : 0 <= Z.land x 255 < 256.
Proof. rewrite land255. apply Z.mod_pos_bound. lia. Qed.

Lemma lxor_byte (x y : Z) : 0 <= x < 256 -> 0 <= y < 256 -> 0 <= Z.lxor x y < 256.
Proof.
  intros Hx Hy.
  pose proof (byte_enum2 (fun x y => is_byte (Z.lxor x y)) ltac:(vm_compute; reflexivity) x y Hx Hy)
    as H.
  unfold is_byte in H. apply andb_true_iff in H as [H1 H2]. lia.
Qed.

Lemma land_lxor_distr (x y m : Z) : Z.land (Z.lxor x y) m = Z.lxor (Z.land x m) (Z.land y m).
Proof.
  apply Z.bits_inj'. intros n _. rewrite Z.land_spec, !Z.lxor_spec, !Z.land_spec.
  destruct (Z.testbit x n), (Z.testbit y n), (Z.testbit m n); reflexivity.
Qed.

Lemma xtime_mask (x : Z) : xtime x = xtime (Z.land x 255).
Proof. unfold xtime. rewrite <- Z.land_assoc, Z.land_diag. reflexivity. Qed.

Lemma xtime_byte (x : Z) : 0 <= xtime x < 256.
Proof.
  rewrite xtime_mask.
  pose proof (byte_enum (fun y => is_byte (xtime y)) ltac:(vm_compute; reflexivity)
                (Z.land x 255) (land255_byte x)) as H.
  unfold is_byte in H. apply andb_true_iff in H as [H1 H2]. lia.
Qed.

Lemma xtime_lxor (x y : Z) : xtime (Z.lxor x y) = Z.lxor (xtime x) (xtime y).
Proof.
  rewrite (xtime_mask (Z.lxor x y)), (xtime_mask x), (xtime_mask y), land_lxor_distr.
  apply Z.eqb_eq.
  exact (byte_enum2 (fun x y => Z.eqb (xtime (Z.lxor x y)) (Z.lxor (xtime x) (xtime y)))
           ltac:(vm_compute; reflexivity) _ _ (land255_byte x) (land255_byte y)).
Qed.

Lemma sbox_byte (x : Z) : 0 <= sbox x < 256.
Proof.
  unfold sbox.
  pose proof (byte_enum (fun y => is_byte (nth (Z.to_nat y) sbox_table 0))
                ltac:(vm_compute; reflexivity) (Z.land x 255) (land255_byte x)) as H.
  unfold is_byte in H. apply andb_true_iff in H as [H1 H2]. lia.
Qed.

Lemma inv_sbox_sbox (x : Z) : 0 <= x < 256 -> inv_sbox (sbox x) = x.
Proof.
  intros Hx. apply Z.eqb_eq.
  exact (byte_enum (fun x => Z.eqb (inv_sbox (sbox x)) x) ltac:(vm_compute; reflexivity) x Hx).
Qed.

(** Two xors of the same terms, in any grouping and order, are equal:
    bit by bit, a [btauto] goal. *)
Ltac xor_ac := apply Z.bits_inj'; intros ? _; rewrite !Z.lxor_spec; btauto.

(** ** MixColumns and its inverse *)

Lemma g2_lxor (x y : Z) : g2 (Z.lxor x y) = Z.lxor (g2 x) (g2 y).
Proof. unfold g2. apply xtime_lxor. Qed.

Lemma g3_lxor (x y : Z) : g3 (Z.lxor x y) = Z.lxor (g3 x) (g3 y).
Proof. unfold g3. rewrite !xtime_lxor. xor_ac. Qed.

Lemma g9_lxor (x y : Z) : g9 (Z.lxor x y) = Z.lxor (g9 x) (g9 y).
Proof. unfold g9. rewrite !xtime_lxor. xor_ac. Qed.

Lemma g11_lxor (x y : Z) : g11 (Z.lxor x y) = Z.lxor (g11 x) (g11 y).
Proof. unfold g11. rewrite !xtime_lxor. xor_ac. Qed.

Lemma g13_lxor (x y : Z) : g13 (Z.lxor x y) = Z.lxor (g13 x) (g13 y).
Proof. unfold g13. rewrite !xtime_lxor. xor_ac. Qed.

Lemma g14_lxor (x y : Z) : g14 (Z.lxor x y) = Z.lxor (g14 x) (g14 y).
Proof. unfold g14. rewrite !xtime_lxor. xor_ac. Qed.

Lemma mix_coeff_00 (v : Z) : 0 <= v < 256 ->
  (Z.lxor (Z.lxor (Z.lxor (g14 (g2 v)) (g11 v)) (g13 v)) (g9 (g3 v))) = v.
Proof.
  intros Hv. apply Z.eqb_eq.
  exact (byte_enum (fun v => Z.eqb (Z.lxor (Z.lxor (Z.lxor (g14 (g2 v)) (g11 v)) (g13 v)) (g9 (g3 v))) v)
           ltac:(vm_compute; reflexivity) v Hv).
Qed.

Lemma mix_coeff_01 (v : Z) : 0 <= v < 256 ->
  (Z.lxor (Z.lxor (Z.lxor (g14 (g3 v)) (g11 (g2 v))) (g13 v)) (g9 v)) = 0.
Proof.
  intros Hv. apply Z.eqb_eq.
  exact (byte_enum (fun v => Z.eqb (Z.lxor (Z.lxor (Z.lxor (g14 (g3 v)) (g11 (g2 v))) (g13 v)) (g9 v)) 0)
           ltac:(vm_compute; reflexivity) v Hv).
Qed.

Lemma mix_coeff_02 (v : Z) : 0 <= v < 256 ->
  (Z.lxor (Z.lxor (Z.lxor (g14 v) (g11 (g3 v))) (g13 (g2 v))) (g9 v)) = 0.
Proof.
  intros Hv. apply Z.eqb_eq.
  exact (byte_enum (fun v => Z.eqb (Z.lxor (Z.lxor (Z.lxor (g14 v) (g11 (g3 v))) (g13 (g2 v))) (g9 v)) 0)
           ltac:(vm_compute; reflexivity) v Hv).
Qed.

Lemma mix_coeff_03 (v : Z) : 0 <= v < 256 ->
  (Z.lxor (Z.lxor (Z.lxor (g14 v) (g11 v)) (g13 (g3 v))) (g9 (g2 v))) = 0.
Proof.
  intros Hv. apply Z.eqb_eq.
  exact (byte_enum (fun v => Z.eqb (Z.lxor (Z.lxor (Z.lxor (g14 v) (g11 v)) (g13 (g3 v))) (g9 (g2 v))) 0)
           ltac:(vm_compute; reflexivity) v Hv).
Qed.

Lemma mix_coeff_10 (v : Z) : 0 <= v < 256 ->
  (Z.lxor (Z.lxor (Z.lxor (g9 (g2 v)) (g14 v)) (g11 v)) (g13 (g3 v))) = 0.
Proof.
  intros Hv. apply Z.eqb_eq.
  exact (byte_enum (fun v => Z.eqb (Z.lxor (Z.lxor (Z.lxor (g9 (g2 v)) (g14 v)) (g11 v)) (g13 (g3 v))) 0)
           ltac:(vm_compute; reflexivity) v Hv).
Qed.

Lemma mix_coeff_11 (v : Z) : 0 <= v < 256 ->
  (Z.lxor (Z.lxor (Z.lxor (g9 (g3 v)) (g14 (g2 v))) (g11 v)) (g13 v)) = v.
Proof.
  intros Hv. apply Z.eqb_eq.
  exact (byte_enum (fun v => Z.eqb (Z.lxor (Z.lxor (Z.lxor (g9 (g3 v)) (g14 (g2 v))) (g11 v)) (g13 v)) v)
           ltac:(vm_compute; reflexivity) v Hv).
Qed.

Lemma mix_coeff_12 (v : Z) : 0 <= v < 256 ->
  (Z.lxor (Z.lxor (Z.lxor (g9 v) (g14 (g3 v))) (g11 (g2 v))) (g13 v)) = 0.
Proof.
  intros Hv. apply Z.eqb_eq.
  exact (byte_enum (fun v => Z.eqb (Z.lxor (Z.lxor (Z.lxor (g9 v) (g14 (g3 v))) (g11 (g2 v))) (g13 v)) 0)
           ltac:(vm_compute; reflexivity) v Hv).
Qed.

Lemma mix_coeff_13 (v : Z) : 0 <= v < 256 ->
  (Z.lxor (Z.lxor (Z.lxor (g9 v) (g14 v)) (g11 (g3 v))) (g13 (g2 v))) = 0.
Proof.
  intros Hv. apply Z.eqb_eq.
  exact (byte_enum (fun v => Z.eqb (Z.lxor (Z.lxor (Z.lxor (g9 v) (g14 v)) (g11 (g3 v))) (g13 (g2 v))) 0)
           ltac:(vm_compute; reflexivity) v Hv).
Qed.

Lemma mix_coeff_20 (v : Z) : 0 <= v < 256 ->
  (Z.lxor (Z.lxor (Z.lxor (g13 (g2 v)) (g9 v)) (g14 v)) (g11 (g3 v))) = 0.
Proof.
  intros Hv. apply Z.eqb_eq.
  exact (byte_enum (fun v => Z.eqb (Z.lxor (Z.lxor (Z.lxor (g13 (g2 v)) (g9 v)) (g14 v)) (g11 (g3 v))) 0)
           ltac:(vm_compute; reflexivity) v Hv).
Qed.

Lemma mix_coeff_21 (v : Z) : 0 <= v < 256 ->
  (Z.lxor (Z.lxor (Z.lxor (g13 (g3 v)) (g9 (g2 v))) (g14 v)) (g11 v)) = 0.
Proof.
  intros Hv. apply Z.eqb_eq.
  exact (byte_enum (fun v => Z.eqb (Z.lxor (Z.lxor (Z.lxor (g13 (g3 v)) (g9 (g2 v))) (g14 v)) (g11 v)) 0)
           ltac:(vm_compute; reflexivity) v Hv).
Qed.

Lemma mix_coeff_22 (v : Z) : 0 <= v < 256 ->
  (Z.lxor (Z.lxor (Z.lxor (g13 v) (g9 (g3 v))) (g14 (g2 v))) (g11 v)) = v.
Proof.
  intros Hv. apply Z.eqb_eq.
  exact (byte_enum (fun v => Z.eqb (Z.lxor (Z.lxor (Z.lxor (g13 v) (g9 (g3 v))) (g14 (g2 v))) (g11 v)) v)
           ltac:(vm_compute; reflexivity) v Hv).
Qed.

Lemma mix_coeff_23 (v : Z) : 0 <= v < 256 ->
  (Z.lxor (Z.lxor (Z.lxor (g13 v) (g9 v)) (g14 (g3 v))) (g11 (g2 v))) = 0.
Proof.
  intros Hv. apply Z.eqb_eq.
  exact (byte_enum (fun v => Z.eqb (Z.lxor (Z.lxor (Z.lxor (g13 v) (g9 v)) (g14 (g3 v))) (g11 (g2 v))) 0)
           ltac:(vm_compute; reflexivity) v Hv).
Qed.

Lemma mix_coeff_30 (v : Z) : 0 <= v < 256 ->
  (Z.lxor (Z.lxor (Z.lxor (g11 (g2 v)) (g13 v)) (g9 v)) (g14 (g3 v))) = 0.
Proof.
  intros Hv. apply Z.eqb_eq.
  exact (byte_enum (fun v => Z.eqb (Z.lxor (Z.lxor (Z.lxor (g11 (g2 v)) (g13 v)) (g9 v)) (g14 (g3 v))) 0)
           ltac:(vm_compute; reflexivity) v Hv).
Qed.

Lemma mix_coeff_31 (v : Z) : 0 <= v < 256 ->
  (Z.lxor (Z.lxor (Z.lxor (g11 (g3 v)) (g13 (g2 v))) (g9 v)) (g14 v)) = 0.
Proof.
  intros Hv. apply Z.eqb_eq.
  exact (byte_enum (fun v => Z.eqb (Z.lxor (Z.lxor (Z.lxor (g11 (g3 v)) (g13 (g2 v))) (g9 v)) (g14 v)) 0)
           ltac:(vm_compute; reflexivity) v Hv).
Qed.

Lemma mix_coeff_32 (v : Z) : 0 <= v < 256 ->
  (Z.lxor (Z.lxor (Z.lxor (g11 v) (g13 (g3 v))) (g9 (g2 v))) (g14 v)) = 0.
Proof.
  intros Hv. apply Z.eqb_eq.
  exact (byte_enum (fun v => Z.eqb (Z.lxor (Z.lxor (Z.lxor (g11 v) (g13 (g3 v))) (g9 (g2 v))) (g14 v)) 0)
           ltac:(vm_compute; reflexivity) v Hv).
Qed.

Lemma mix_coeff_33 (v : Z) : 0 <= v < 256 ->
  (Z.lxor (Z.lxor (Z.lxor (g11 v) (g13 v)) (g9 (g3 v))) (g14 (g2 v))) = v.
Proof.
  intros Hv. apply Z.eqb_eq.
  exact (byte_enum (fun v => Z.eqb (Z.lxor (Z.lxor (Z.lxor (g11 v) (g13 v)) (g9 (g3 v))) (g14 (g2 v))) v)
           ltac:(vm_compute; reflexivity) v Hv).
Qed.

Lemma inv_mix_col_mix_col (a b c d : Z) :
  0 <= a < 256 -> 0 <= b < 256 -> 0 <= c < 256 -> 0 <= d < 256 ->
  inv_mix_columns (mix_col a b c d) = [a; b; c; d].
Proof.
  intros Ha Hb Hc Hd. unfold mix_col. cbn [inv_mix_columns app]. unfold inv_mix_col.
  rewrite app_nil_r.
  rewrite !g14_lxor, !g11_lxor, !g13_lxor, !g9_lxor.
  f_equal; [|f_equal; [|f_equal; [|f_equal]]].
  - transitivity (Z.lxor (Z.lxor (Z.lxor (Z.lxor (Z.lxor (Z.lxor (g14 (g2 a)) (g11 a)) (g13 a)) (g9 (g3 a))) (Z.lxor (Z.lxor (Z.lxor (g14 (g3 b)) (g11 (g2 b))) (g13 b)) (g9 b))) (Z.lxor (Z.lxor (Z.lxor (g14 c) (g11 (g3 c))) (g13 (g2 c))) (g9 c))) (Z.lxor (Z.lxor (Z.lxor (g14 d) (g11 d)) (g13 (g3 d))) (g9 (g2 d)))); [xor_ac|].
    rewrite (mix_coeff_00 a Ha), (mix_coeff_01 b Hb), (mix_coeff_02 c Hc), (mix_coeff_03 d Hd). rewrite ?Z.lxor_0_r, ?Z.lxor_0_l. reflexivity.
  - transitivity (Z.lxor (Z.lxor (Z.lxor (Z.lxor (Z.lxor (Z.lxor (g9 (g2 a)) (g14 a)) (g11 a)) (g13 (g3 a))) (Z.lxor (Z.lxor (Z.lxor (g9 (g3 b)) (g14 (g2 b))) (g11 b)) (g13 b))) (Z.lxor (Z.lxor (Z.lxor (g9 c) (g14 (g3 c))) (g11 (g2 c))) (g13 c))) (Z.lxor (Z.lxor (Z.lxor (g9 d) (g14 d)) (g11 (g3 d))) (g13 (g2 d)))); [xor_ac|].
    rewrite (mix_coeff_10 a Ha), (mix_coeff_11 b Hb), (mix_coeff_12 c Hc), (mix_coeff_13 d Hd). rewrite ?Z.lxor_0_r, ?Z.lxor_0_l. reflexivity.
  - transitivity (Z.lxor (Z.lxor (Z.lxor (Z.lxor (Z.lxor (Z.lxor (g13 (g2 a)) (g9 a)) (g14 a)) (g11 (g3 a))) (Z.lxor (Z.lxor (Z.lxor (g13 (g3 b)) (g9 (g2 b))) (g14 b)) (g11 b))) (Z.lxor (Z.lxor (Z.lxor (g13 c) (g9 (g3 c))) (g14 (g2 c))) (g11 c))) (Z.lxor (Z.lxor (Z.lxor (g13 d) (g9 d)) (g14 (g3 d))) (g11 (g2 d)))); [xor_ac|].
    rewrite (mix_coeff_20 a Ha), (mix_coeff_21 b Hb), (mix_coeff_22 c Hc), (mix_coeff_23 d Hd). rewrite ?Z.lxor_0_r, ?Z.lxor_0_l. reflexivity.
  - transitivity (Z.lxor (Z.lxor (Z.lxor (Z.lxor (Z.lxor (Z.lxor (g11 (g2 a)) (g13 a)) (g9 a)) (g14 (g3 a))) (Z.lxor (Z.lxor (Z.lxor (g11 (g3 b)) (g13 (g2 b))) (g9 b)) (g14 b))) (Z.lxor (Z.lxor (Z.lxor (g11 c) (g13 (g3 c))) (g9 (g2 c))) (g14 c))) (Z.lxor (Z.lxor (Z.lxor (g11 d) (g13 d)) (g9 (g3 d))) (g14 (g2 d)))); [xor_ac|].
    rewrite (mix_coeff_30 a Ha), (mix_coeff_31 b Hb), (mix_coeff_32 c Hc), (mix_coeff_33 d Hd). rewrite ?Z.lxor_0_r, ?Z.lxor_0_l. reflexivity.
Qed.

(** ** The layers on a 16-byte state *)

Abbreviation Bytes := (Forall (fun x => 0 <= x < 256)).

Lemma xor_bytes_length (a b : list Z) : length (xor_bytes a b) = Nat.min (length a) (length b).
Proof. revert b; induction a as [|x a IH]; intros [|y b]; simpl; auto. Qed.

Lemma xor_bytes_bytes (a b : list Z) : Bytes a -> Bytes b -> Bytes (xor_bytes a b).
Proof.
  revert b; induction a as [|x a IH]; intros [|y b] Ha Hb; simpl; auto.
  inversion Ha; inversion Hb; subst. constructor; [now apply lxor_byte|auto].
Qed.

Lemma xor_bytes_cancel (a k : list Z) :
  (length a <= length k)%nat -> xor_bytes (xor_bytes a k) k = a.
Proof.
  revert k; induction a as [|x a IH]; intros [|y k] Hl; simpl in *; try lia; auto.
  rewrite Z.lxor_assoc, Z.lxor_nilpotent, Z.lxor_0_r, IH by lia. reflexivity.
Qed.

Lemma ark_blk (k s : list Z) : blk 16 k -> blk 16 s -> blk 16 (add_round_key k s).
Proof.
  intros [Lk Bk] [Ls Bs]. split; [unfold add_round_key; rewrite xor_bytes_length; lia|].
  now apply xor_bytes_bytes.
Qed.

Lemma ark_cancel (k s : list Z) : blk 16 k -> blk 16 s -> add_round_key k (add_round_key k s) = s.
Proof. intros [Lk _] [Ls _]. apply xor_bytes_cancel. lia. Qed.

Lemma sub_bytes_blk (s : list Z) : blk 16 s -> blk 16 (sub_bytes s).
Proof.
  intros [L B]. split; [unfold sub_bytes; rewrite length_map; exact L|].
  apply List.Forall_forall. intros y Hy. apply in_map_iff in Hy as (x & <- & _). apply sbox_byte.
Qed.

Lemma inv_sub_sub (s : list Z) : Bytes s -> inv_sub_bytes (sub_bytes s) = s.
Proof.
  induction 1 as [|x s Hx _ IH]; [reflexivity|].
  unfold inv_sub_bytes, sub_bytes in *. simpl. now rewrite inv_sbox_sbox, IH.
Qed.

(** A list of 16 elements, taken apart. *)
Ltac explode16 s :=
  let L := fresh "L" in
  match goal with H : length s = 16%nat |- _ => rename H into L end;
  do 16 (let x := fresh "x" in destruct s as [|x s]; [discriminate L|]);
  destruct s; [|discriminate L].

Ltac unpack_forall :=
  repeat match goal with
         | Hf : Forall _ (_ :: _) |- _ => apply List.Forall_cons_iff in Hf as [? Hf]
         | Hf : Forall _ [] |- _ => clear Hf
         end.

Lemma shift_rows_blk (s : list Z) : blk 16 s -> blk 16 (shift_rows s).
Proof.
  intros [L B]. explode16 s. split; [reflexivity|].
  unpack_forall.
  cbn. repeat (apply List.Forall_cons; [assumption|]). apply List.Forall_nil.
Qed.

Lemma inv_shift_shift (s : list Z) : length s = 16%nat -> inv_shift_rows (shift_rows s) = s.
Proof. intros L. explode16 s. reflexivity. Qed.

Lemma g2_byte (x : Z) : 0 <= g2 x < 256.
Proof. apply xtime_byte. Qed.

Lemma g3_byte (x : Z) : 0 <= x < 256 -> 0 <= g3 x < 256.
Proof. intros Hx. unfold g3. apply lxor_byte; [apply xtime_byte|exact Hx]. Qed.

Lemma mix_col_bytes (a b c d : Z) :
  0 <= a < 256 -> 0 <= b < 256 -> 0 <= c < 256 -> 0 <= d < 256 -> Bytes (mix_col a b c d).
Proof.
  intros Ha Hb Hc Hd. pose proof (g2_byte a). pose proof (g2_byte b). pose proof (g2_byte c).
  pose proof (g2_byte d). pose proof (g3_byte a Ha). pose proof (g3_byte b Hb).
  pose proof (g3_byte c Hc). pose proof (g3_byte d Hd).
  unfold mix_col. repeat constructor; repeat apply lxor_byte; assumption.
Qed.

Lemma mix_columns_blk (s : list Z) : blk 16 s -> blk 16 (mix_columns s).
Proof.
  intros [L B]. explode16 s.
  unpack_forall.
  split; [reflexivity|]. cbn [mix_columns].
  repeat apply Forall_app_2; try apply mix_col_bytes; auto.
Qed.

Lemma inv_mix_columns_app (a b c d : Z) (rest : list Z) :
  0 <= a < 256 -> 0 <= b < 256 -> 0 <= c < 256 -> 0 <= d < 256 ->
  inv_mix_columns (mix_col a b c d ++ rest) = a :: b :: c :: d :: inv_mix_columns rest.
Proof.
  intros Ha Hb Hc Hd. pose proof (inv_mix_col_mix_col a b c d Ha Hb Hc Hd) as H.
  unfold mix_col in *. cbn [inv_mix_columns app] in *. rewrite app_nil_r in H.
  rewrite H. reflexivity.
Qed.

Lemma inv_mix_mix (s : list Z) : blk 16 s -> inv_mix_columns (mix_columns s) = s.
Proof.
  intros [L B]. explode16 s.
  unpack_forall.
  cbn [mix_columns].
  rewrite !inv_mix_columns_app by assumption. reflexivity.
Qed.

(** ** Rounds and blocks *)

Lemma sub_shift_blk (s : list Z) : blk 16 s -> blk 16 (shift_rows (sub_bytes s)).
Proof. intros H. apply shift_rows_blk, sub_bytes_blk, H. Qed.

Lemma enc_round_blk (k s : list Z) :
  blk 16 k -> blk 16 s -> blk 16 (add_round_key k (mix_columns (shift_rows (sub_bytes s)))).
Proof. intros Hk Hs. apply ark_blk; [exact Hk|]. apply mix_columns_blk, sub_shift_blk, Hs. Qed.

(** One decryption round undoes one encryption round, seen through
    SubBytes and ShiftRows. *)
Lemma round_inverse (k s : list Z) :
  blk 16 k -> blk 16 s ->
  let y := add_round_key k (mix_columns (shift_rows (sub_bytes s))) in
  inv_mix_columns (add_round_key k (inv_sub_bytes (inv_shift_rows (shift_rows (sub_bytes y)))))
    = shift_rows (sub_bytes s).
Proof.
  intros Hk Hs y. pose proof (enc_round_blk k s Hk Hs) as Hy. fold y in Hy.
  pose proof (sub_bytes_blk y Hy) as [Ly _].
  rewrite inv_shift_shift by exact Ly.
  rewrite inv_sub_sub by (destruct Hy; assumption).
  unfold y. rewrite ark_cancel by (try apply mix_columns_blk; try apply sub_shift_blk; assumption).
  apply inv_mix_mix, sub_shift_blk, Hs.
Qed.

Lemma rounds_inverse (ks : list (list Z)) (s : list Z) :
  Forall (blk 16) ks -> blk 16 s ->
  blk 16 (enc_rounds ks s) /\
  dec_rounds (rev ks) (shift_rows (sub_bytes (enc_rounds ks s))) = shift_rows (sub_bytes s).
Proof.
  revert s. induction ks as [|k ks IH] using rev_ind; intros s Hks Hs.
  - split; [exact Hs|reflexivity].
  - apply Forall_app in Hks as [Hks Hk]. inversion Hk as [|? ? Hk1 _]; subst.
    destruct (IH s Hks Hs) as [Hb Hd].
    unfold enc_rounds, dec_rounds in *. rewrite fold_left_app, rev_app_distr. cbn [fold_left rev app].
    split; [apply enc_round_blk; assumption|].
    rewrite (round_inverse k _ Hk1 Hb). exact Hd.
Qed.

(** AES-256 decryption inverts encryption, for any 15 round keys of 16
    bytes. *)
Lemma aes_block_inverse (key b : list Z) :
  length (round_keys key) = 15%nat -> Forall (blk 16) (round_keys key) -> blk 16 b ->
  blk 16 (aes_encrypt_block key b) /\ aes_decrypt_block key (aes_encrypt_block key b) = b.
Proof.
  intros L F Hb. unfold aes_encrypt_block, aes_decrypt_block.
  set (rks := round_keys key) in *.
  assert (K : forall i, (i < 15)%nat -> blk 16 (nth i rks [])).
  { intros i Hi. apply (List.Forall_forall (blk 16) rks); [exact F|]. apply nth_In. lia. }
  assert (Ks : Forall (blk 16) (firstn 13 (tl rks))).
  { apply List.Forall_forall. intros x Hx.
    assert (Hx' : In x (tl rks)).
    { rewrite <- (firstn_skipn 13 (tl rks)). apply in_or_app. left. exact Hx. }
    clear Hx. rename Hx' into Hx.
    destruct rks as [|r0 rs]; [discriminate|]. simpl in Hx.
    apply (List.Forall_forall (blk 16) (r0 :: rs)); [exact F|right; exact Hx]. }
  pose proof (ark_blk _ _ (K 0%nat ltac:(lia)) Hb) as H0.
  destruct (rounds_inverse _ _ Ks H0) as [H13 Hd].
  pose proof (sub_shift_blk _ H13) as H13'.
  split; [apply ark_blk; [apply K; lia|exact H13']|].
  rewrite ark_cancel by (try apply K; try lia; exact H13').
  rewrite Hd. destruct (sub_bytes_blk _ H0) as [L0 _].
  rewrite inv_shift_shift by exact L0.
  rewrite inv_sub_sub by (destruct H0; assumption).
  apply ark_cancel; [apply K; lia|exact Hb].
Qed.

(** ** The key schedule yields 15 round keys of 16 bytes *)

Lemma Forall_firstn_skipn {A} (P : A -> Prop) (n : nat) (l : list A) :
  Forall P l -> Forall P (firstn n l) /\ Forall P (skipn n l).
Proof. intros H. rewrite <- (firstn_skipn n l) in H. now apply Forall_app in H. Qed.

Lemma Forall_nth_blk {A} (P : A -> Prop) (l : list A) (i : nat) (d : A) :
  Forall P l -> (i < length l)%nat -> P (nth i l d).
Proof. intros H Hi. apply (List.Forall_forall P l); [exact H|]. apply nth_In, Hi. Qed.

Lemma key_words_ok (n : nat) (K : list Z) :
  length K = (4 * n)%nat -> Bytes K ->
  length (key_words n K) = n /\ Forall (blk 4) (key_words n K).
Proof.
  revert K; induction n as [|n IH]; intros K L B; [split; [reflexivity|constructor]|].
  destruct (Forall_firstn_skipn _ 4 K B) as [B1 B2].
  destruct (IH (skipn 4 K)) as [L' F']; [rewrite length_skipn; lia|exact B2|].
  simpl. split; [lia|]. constructor; [|exact F'].
  split; [rewrite length_firstn; lia|exact B1].
Qed.

Lemma xor_word_ok (a b : list Z) : blk 4 a -> blk 4 b -> blk 4 (xor_bytes a b).
Proof.
  intros [La Ba] [Lb Bb]. split; [rewrite xor_bytes_length; lia|]. now apply xor_bytes_bytes.
Qed.

Lemma sub_word_ok (w : list Z) : blk 4 w -> blk 4 (sub_word w).
Proof.
  intros [L _]. split; [unfold sub_word; rewrite length_map; exact L|].
  apply List.Forall_forall. intros y Hy. apply in_map_iff in Hy as (x & <- & _). apply sbox_byte.
Qed.

Lemma rot_word_ok (w : list Z) : blk 4 w -> blk 4 (rot_word w).
Proof.
  intros [L B]. destruct w as [|a r]; [discriminate|]. inversion B; subst.
  split; [simpl in *; rewrite length_app; simpl; lia|].
  apply Forall_app. split; [assumption|]. constructor; [assumption|constructor].
Qed.

Lemma rcon_ok (i : nat) : blk 4 (rcon i).
Proof.
  split; [reflexivity|]. unfold rcon.
  assert (H : 0 <= nth (i - 1) [1; 2; 4; 8; 16; 32; 64] 0 < 256).
  { destruct (i - 1)%nat as [|[|[|[|[|[|[|k]]]]]]]; try (simpl; lia).
    destruct k; simpl; lia. }
  repeat (apply List.Forall_cons; [lia|]). apply List.Forall_nil.
Qed.

Lemma expand_go_ok (n i : nat) (w : list (list Z)) :
  (8 <= i)%nat -> length w = i -> Forall (blk 4) w ->
  length (expand_go n i w) = (i + n)%nat /\ Forall (blk 4) (expand_go n i w).
Proof.
  revert i w; induction n as [|n IH]; intros i w Hi L F; cbn [expand_go]; [split; [lia|exact F]|].
  set (temp := nth (i - 1) w []).
  assert (Ht : blk 4 temp) by (apply Forall_nth_blk; [exact F|lia]).
  assert (Ht' : blk 4 (if (i mod 8 =? 0)%nat then xor_bytes (sub_word (rot_word temp)) (rcon (i / 8))
                        else if (i mod 8 =? 4)%nat then sub_word temp else temp)).
  { destruct (i mod 8 =? 0)%nat;
      [apply xor_word_ok; [apply sub_word_ok, rot_word_ok, Ht|apply rcon_ok]|].
    destruct (i mod 8 =? 4)%nat; [apply sub_word_ok, Ht|exact Ht]. }
  revert Ht'. generalize (if (i mod 8 =? 0)%nat then xor_bytes (sub_word (rot_word temp)) (rcon (i / 8))
                        else if (i mod 8 =? 4)%nat then sub_word temp else temp). intros temp' Ht'.
  assert (Hn : blk 4 (xor_bytes (nth (i - 8) w []) temp'))
    by (apply xor_word_ok; [apply Forall_nth_blk; [exact F|lia]|exact Ht']).
  destruct (IH (S i) (w ++ [xor_bytes (nth (i - 8) w []) temp'])) as [L' F'].
  - lia.
  - rewrite length_app. simpl. lia.
  - apply Forall_app. split; [exact F|constructor; [exact Hn|constructor]].
  - split; [lia|exact F'].
Qed.

Lemma round_keys_ok (K : list Z) :
  blk 32 K -> length (round_keys K) = 15%nat /\ Forall (blk 16) (round_keys K).
Proof.
  intros [L B]. destruct (key_words_ok 8 K ltac:(lia) B) as [L8 F8].
  destruct (expand_go_ok 52 8 _ ltac:(lia) L8 F8) as [Lw Fw].
  unfold round_keys, expand_key.
  split; [rewrite length_map, length_seq; reflexivity|].
  apply List.Forall_forall. intros k Hk. apply in_map_iff in Hk as (r & <- & Hr).
  apply in_seq in Hr. unfold round_key.
  assert (W : forall j, (j < 60)%nat -> blk 4 (nth j (expand_go 52 8 (key_words 8 K)) []))
    by (intros j Hj; apply Forall_nth_blk; [exact Fw|lia]).
  destruct (W (4 * r)%nat ltac:(lia)) as [L0 B0].
  destruct (W (4 * r + 1)%nat ltac:(lia)) as [L1 B1].
  destruct (W (4 * r + 2)%nat ltac:(lia)) as [L2 B2].
  destruct (W (4 * r + 3)%nat ltac:(lia)) as [L3 B3].
  split; [rewrite !length_app; lia|].
  apply Forall_app; split; [exact B0|]. apply Forall_app; split; [exact B1|].
  apply Forall_app; split; [exact B2|exact B3].
Qed.

(** *** Blocks of 16 bytes *)

Lemma length_concat_blk (cs : list (list Z)) :
  Forall (blk 16) cs -> length (concat cs) = (16 * length cs)%nat.
Proof.
  induction 1 as [|c cs [Lc _] _ IH]; [reflexivity|].
  cbn [concat length]. rewrite length_app, IH, Lc. lia.
Qed.

Lemma concat_blk_bytes (cs : list (list Z)) : Forall (blk 16) cs -> Bytes (concat cs).
Proof.
  induction 1 as [|c cs [_ Bc] _ IH]; [constructor|].
  cbn [concat]. apply Forall_app. split; assumption.
Qed.

Lemma chunks_S (n : nat) (l : list Z) :
  l <> [] -> chunks (S n) l = firstn 16 l :: chunks n (skipn 16 l).
Proof. destruct l; [congruence|reflexivity]. Qed.

Lemma firstn_skipn_app16 (c l : list Z) :
  length c = 16%nat -> firstn 16 (c ++ l) = c /\ skipn 16 (c ++ l) = l.
Proof.
  intros Lc. rewrite <- Lc, firstn_app, skipn_app, Nat.sub_diag, firstn_all, skipn_all.
  split; [apply app_nil_r|reflexivity].
Qed.

Lemma chunks_concat (n : nat) (cs : list (list Z)) :
  Forall (blk 16) cs -> (length cs <= n)%nat -> chunks n (concat cs) = cs.
Proof.
  revert n; induction cs as [|c cs IH]; intros n F Hn; [destruct n; reflexivity|].
  inversion F as [|? ? [Lc _] Fcs]; subst. destruct n as [|n]; [simpl in Hn; lia|].
  cbn [concat]. rewrite chunks_S.
  - destruct (firstn_skipn_app16 c (concat cs) Lc) as [-> ->].
    rewrite IH; [reflexivity|exact Fcs|simpl in Hn; lia].
  - intros E. destruct c; [discriminate Lc|discriminate E].
Qed.

Lemma blocks_concat (cs : list (list Z)) : Forall (blk 16) cs -> blocks (concat cs) = cs.
Proof.
  intros F. unfold blocks. apply chunks_concat; [exact F|].
  rewrite (length_concat_blk cs F). lia.
Qed.

Lemma chunks_blk (k n : nat) (l : list Z) :
  length l = (16 * k)%nat -> (k <= n)%nat -> Bytes l ->
  Forall (blk 16) (chunks n l) /\ concat (chunks n l) = l.
Proof.
  revert n l; induction k as [|k IH]; intros n l L Hk B.
  - destruct l; [|simpl in L; lia]. destruct n; split; first [constructor|reflexivity].
  - destruct n as [|n]; [lia|].
    rewrite chunks_S by (intros ->; simpl in L; lia).
    destruct (Forall_firstn_skipn _ 16 l B) as [B1 B2].
    destruct (IH n (skipn 16 l)) as [F E]; [rewrite length_skipn; lia|lia|exact B2|].
    split.
    + constructor; [split; [rewrite length_firstn; lia|exact B1]|exact F].
    + cbn [concat]. rewrite E. apply firstn_skipn.
Qed.

Lemma blocks_blk (l : list Z) :
  (length l mod 16 = 0)%nat -> Bytes l -> Forall (blk 16) (blocks l) /\ concat (blocks l) = l.
Proof.
  intros M B. unfold blocks. pose proof (Nat.div_mod_eq (length l) 16) as D.
  apply (chunks_blk (length l / 16)); [lia|lia|exact B].
Qed.

(** *** PKCS#7 *)

Lemma pkcs7_pad_facts (p : list Z) :
  Bytes p ->
  Bytes (pkcs7_pad p) /\ (length (pkcs7_pad p) mod 16 = 0)%nat /\ (0 < length (pkcs7_pad p))%nat.
Proof.
  intros B. unfold pkcs7_pad.
  pose proof (Nat.mod_upper_bound (length p) 16 ltac:(lia)) as U.
  pose proof (Nat.div_mod_eq (length p) 16) as D.
  split; [|split].
  - apply Forall_app. split; [exact B|].
    apply List.Forall_forall. intros x Hx. apply repeat_spec in Hx as ->. lia.
  - rewrite length_app, repeat_length.
    replace (length p + (16 - length p mod 16))%nat with ((length p / 16 + 1) * 16)%nat by lia.
    apply Nat.Div0.mod_mul.
  - rewrite length_app, repeat_length. lia.
Qed.

Lemma pkcs7_unpad_cons (p rest : list Z) (n : Z) :
  rev p = n :: rest ->
  pkcs7_unpad p =
  if (n <=? 0) || (16 <? n) then None
  else if forallb (fun x => x =? n) (firstn (Z.to_nat n) (n :: rest))
  then Some (firstn (length p - Z.to_nat n) p)
  else None.
Proof. intros R. unfold pkcs7_unpad. rewrite R. reflexivity. Qed.

Lemma pkcs7_unpad_pad (p : list Z) : pkcs7_unpad (pkcs7_pad p) = Some p.
Proof.
  unfold pkcs7_pad.
  pose proof (Nat.mod_upper_bound (length p) 16 ltac:(lia)) as U.
  remember (16 - length p mod 16)%nat as n eqn:En.
  assert (Hn : (1 <= n <= 16)%nat) by lia. clear En U.
  destruct n as [|m]; [lia|].
  rewrite (pkcs7_unpad_cons _ (repeat (Z.of_nat (S m)) m ++ rev p) (Z.of_nat (S m)))
    by (rewrite rev_app_distr, rev_repeat; reflexivity).
  replace ((Z.of_nat (S m) <=? 0) || (16 <? Z.of_nat (S m))) with false
    by (symmetry; apply orb_false_iff; split; [apply Z.leb_gt|apply Z.ltb_ge]; lia).
  change (Z.of_nat (S m) :: repeat (Z.of_nat (S m)) m ++ rev p)
    with (repeat (Z.of_nat (S m)) (S m) ++ rev p).
  rewrite Nat2Z.id, firstn_app, repeat_length, Nat.sub_diag, firstn_all2 by (rewrite repeat_length; lia).
  replace (forallb (fun x => x =? Z.of_nat (S m)) (repeat (Z.of_nat (S m)) (S m) ++ firstn 0 (rev p)))
    with true.
  - rewrite length_app, repeat_length, Nat.add_sub, firstn_app, firstn_all, Nat.sub_diag.
    rewrite app_nil_r. reflexivity.
  - symmetry. rewrite app_nil_r. apply forallb_forall. intros x Hx.
    apply repeat_spec in Hx as ->. apply Z.eqb_refl.
Qed.

(** *** CBC chaining over a block cipher and its inverse *)

Section CBC.
Variables (E D : list Z -> list Z).
Hypothesis E_blk : forall b, blk 16 b -> blk 16 (E b).
Hypothesis D_E : forall b, blk 16 b -> D (E b) = b.

Lemma cbc_roundtrip (prev : list Z) (bs : list (list Z)) :
  blk 16 prev -> Forall (blk 16) bs ->
  exists cs, cbc_enc_with E prev bs = concat cs /\ Forall (blk 16) cs /\
             length cs = length bs /\ cbc_dec_with D prev cs = concat bs.
Proof.
  revert prev; induction bs as [|b bs IH]; intros prev Hp F.
  - exists []. split; [reflexivity|]. split; [constructor|]. split; reflexivity.
  - inversion F as [|? ? Hb Fbs]; subst.
    assert (Hx : blk 16 (xor_bytes b prev)).
    { destruct Hb as [Lb Bb], Hp as [Lp Bp].
      split; [rewrite xor_bytes_length; lia|now apply xor_bytes_bytes]. }
    destruct (IH (E (xor_bytes b prev)) (E_blk _ Hx) Fbs) as (cs & Ec & Fc & Lc & Dc).
    exists (E (xor_bytes b prev) :: cs). cbn [cbc_enc_with cbc_dec_with concat length].
    rewrite Ec, Dc, D_E by exact Hx.
    split; [reflexivity|]. split; [constructor; [apply E_blk, Hx|exact Fc]|].
    split; [lia|].
    destruct Hb as [Lb _], Hp as [Lp _]. rewrite xor_bytes_cancel by lia. reflexivity.
Qed.

End CBC.

(** *** Masks and shifts as division *)

Lemma land_ones_mod (a k : Z) : 0 <= k -> Z.land a (2 ^ k - 1) = a mod 2 ^ k.
Proof. intros Hk. rewrite <- Z.land_ones by exact Hk. rewrite Z.ones_equiv. reflexivity. Qed.

Lemma land63 (a : Z) : Z.land a 63 = a mod 64.
Proof. exact (land_ones_mod a 6 ltac:(lia)). Qed.
Lemma land31 (a : Z) : Z.land a 31 = a mod 32.
Proof. exact (land_ones_mod a 5 ltac:(lia)). Qed.
Lemma land15 (a : Z) : Z.land a 15 = a mod 16.
Proof. exact (land_ones_mod a 4 ltac:(lia)). Qed.
Lemma land7 (a : Z) : Z.land a 7 = a mod 8.
Proof. exact (land_ones_mod a 3 ltac:(lia)). Qed.
Lemma land1023 (a : Z) : Z.land a 1023 = a mod 1024.
Proof. exact (land_ones_mod a 10 ltac:(lia)). Qed.

Lemma shr_div (a k : Z) : 0 <= k -> Z.shiftr a k = a / 2 ^ k.
Proof. exact (Z.shiftr_div_pow2 a k). Qed.

Ltac zbool :=
  match goal with
  | |- context [?a <=? ?b] =>
      first [rewrite (proj2 (Z.leb_le a b)) by lia | rewrite (proj2 (Z.leb_gt a b)) by lia]
  | |- context [?a <? ?b] =>
      first [rewrite (proj2 (Z.ltb_lt a b)) by lia | rewrite (proj2 (Z.ltb_ge a b)) by lia]
  | |- context [?a =? ?b] =>
      first [rewrite (proj2 (Z.eqb_eq a b)) by lia | rewrite (proj2 (Z.eqb_neq a b)) by lia]
  end; cbn [andb orb negb].

(** *** Hex *)

Lemma hex_digit_not_colon (n : Z) : hex_digit n <> 58.
Proof.
  unfold hex_digit. destruct (n <? 10) eqn:E; [apply Z.ltb_lt in E|apply Z.ltb_ge in E]; lia.
Qed.

Lemma hex_encode_no_colon (bs : list Z) : Forall (fun c => c <> 58) (hex_encode bs).
Proof.
  unfold hex_encode. induction bs as [|b bs IH]; [constructor|]. cbn [flat_map].
  apply Forall_app. split; [|exact IH].
  constructor; [apply hex_digit_not_colon|constructor; [apply hex_digit_not_colon|constructor]].
Qed.

Lemma hex_encode_length (bs : list Z) : length (hex_encode bs) = (2 * length bs)%nat.
Proof.
  unfold hex_encode. induction bs as [|b bs IH]; [reflexivity|].
  cbn [flat_map length app]. rewrite IH. lia.
Qed.

Lemma unhex_hex_digit (n : Z) : 0 <= n < 16 -> unhex (hex_digit n) = Some n.
Proof.
  intros H. unfold hex_digit, unhex.
  destruct (n <? 10) eqn:E; [apply Z.ltb_lt in E|apply Z.ltb_ge in E];
    rewrite land255, Z.mod_small by lia; repeat zbool; f_equal; lia.
Qed.

Lemma hex_decode_encode (bs : list Z) : Bytes bs -> hex_decode (hex_encode bs) = bs.
Proof.
  induction 1 as [|b bs Hb _ IH]; [reflexivity|].
  unfold hex_encode in *. cbn [flat_map app hex_decode].
  rewrite shr_div, land15 by lia. change (2 ^ 4) with 16.
  assert (H1 : 0 <= b / 16 < 16) by (Z.div_mod_to_equations; lia).
  assert (H2 : 0 <= b mod 16 < 16) by (Z.div_mod_to_equations; lia).
  rewrite (unhex_hex_digit _ H1), (unhex_hex_digit _ H2), IH. f_equal.
  Z.div_mod_to_equations. lia.
Qed.

(** *** Splitting at ':' *)

Lemma split_none (s : list Z) : Forall (fun c => c <> 58) s -> js_split_char 58 s = [s].
Proof.
  induction 1 as [|c s Hc _ IH]; [reflexivity|].
  cbn [js_split_char]. rewrite IH, (proj2 (Z.eqb_neq c 58) Hc). reflexivity.
Qed.

Lemma split_two (a b : list Z) :
  Forall (fun c => c <> 58) a -> Forall (fun c => c <> 58) b ->
  js_split_char 58 (a ++ [58] ++ b) = [a; b].
Proof.
  intros Fa Fb. induction Fa as [|c a Hc _ IH].
  - cbn [app js_split_char]. rewrite split_none by exact Fb. reflexivity.
  - cbn [app js_split_char]. cbn [app] in IH. rewrite IH, (proj2 (Z.eqb_neq c 58) Hc). reflexivity.
Qed.

(** *** UTF-8 *)

Definition scalar (c : Z) : Prop := 0 <= c < 1114112 /\ ~ (55296 <= c <= 57343).

Lemma is_high_spec (u : Z) : is_high u = true <-> 55296 <= u <= 56319.
Proof. unfold is_high. rewrite andb_true_iff, !Z.leb_le. reflexivity. Qed.

Lemma is_low_spec (u : Z) : is_low u = true <-> 56320 <= u <= 57343.
Proof. unfold is_low. rewrite andb_true_iff, !Z.leb_le. reflexivity. Qed.

Lemma lor_shiftl_add (x y k : Z) :
  0 <= k -> 0 <= y < 2 ^ k -> Z.lor (Z.shiftl x k) y = x * 2 ^ k + y.
Proof.
  intros Hk Hy.
  assert (L : Z.land (Z.shiftl x k) y = 0).
  { apply Z.bits_inj'. intros i Hi. rewrite Z.land_spec, Z.bits_0.
    destruct (Z.lt_ge_cases i k) as [Hik|Hik].
    - rewrite Z.shiftl_spec_low by exact Hik. reflexivity.
    - rewrite <- (Z.mod_small y (2 ^ k)) by exact Hy.
      rewrite Z.mod_pow2_bits_high by lia. apply andb_false_r. }
  rewrite <- (Z.lxor_lor _ _ L), <- (Z.add_nocarry_lxor _ _ L).
  rewrite Z.shiftl_mul_pow2 by exact Hk. reflexivity.
Qed.



Lemma utf8_1 (c : Z) : 0 <= c < 128 -> utf8_of_cp c = [c].
Proof. intros H. unfold utf8_of_cp. repeat zbool. reflexivity. Qed.

Lemma utf8_2 (c : Z) : 128 <= c < 2048 -> utf8_of_cp c = [192 + c / 64; 128 + c mod 64].
Proof.
  intros H. unfold utf8_of_cp. repeat zbool.
  rewrite shr_div, land63 by lia. reflexivity.
Qed.

Lemma utf8_3 (c : Z) :
  2048 <= c < 65536 -> utf8_of_cp c = [224 + c / 4096; 128 + c / 64 mod 64; 128 + c mod 64].
Proof.
  intros H. unfold utf8_of_cp. repeat zbool.
  rewrite !shr_div, !land63 by lia. reflexivity.
Qed.

Lemma utf8_4 (c : Z) :
  65536 <= c -> utf8_of_cp c =
  [240 + c / 262144; 128 + c / 4096 mod 64; 128 + c / 64 mod 64; 128 + c mod 64].
Proof.
  intros H. unfold utf8_of_cp. repeat zbool.
  rewrite !shr_div, !land63 by lia. reflexivity.
Qed.

Lemma decode_ascii (b : Z) : 0 <= b <= 127 -> decode_byte d_init b = (d_init, [b]).
Proof.
  intros H. unfold decode_byte, start_byte, d_init. cbn [d_needed]. repeat zbool. reflexivity.
Qed.

Lemma decode_start2 (b : Z) :
  194 <= b <= 223 -> decode_byte d_init b = (mkD 1 0 (b - 192) 128 191, []).
Proof.
  intros H. unfold decode_byte, start_byte, d_init. cbn [d_needed]. repeat zbool.
  rewrite land31. do 3 f_equal. Z.div_mod_to_equations. lia.
Qed.

Lemma decode_start3 (b : Z) :
  224 <= b <= 239 -> decode_byte d_init b =
  (mkD 2 0 (b - 224) (if b =? 224 then 160 else 128) (if b =? 237 then 159 else 191), []).
Proof.
  intros H. unfold decode_byte, start_byte, d_init. cbn [d_needed].
  repeat zbool. rewrite land15. do 3 f_equal. Z.div_mod_to_equations. lia.
Qed.

Lemma decode_start4 (b : Z) :
  240 <= b <= 244 -> decode_byte d_init b =
  (mkD 3 0 (b - 240) (if b =? 240 then 144 else 128) (if b =? 244 then 143 else 191), []).
Proof.
  intros H. unfold decode_byte, start_byte, d_init. cbn [d_needed].
  repeat zbool. rewrite land7. do 3 f_equal. Z.div_mod_to_equations. lia.
Qed.

Lemma decode_cont (n s cp lo hi b : Z) :
  n <> 0 -> lo <= b <= hi -> 128 <= b <= 191 ->
  decode_byte (mkD n s cp lo hi) b =
  if s + 1 =? n then (d_init, [cp * 64 + (b - 128)])
  else (mkD n (s + 1) (cp * 64 + (b - 128)) 128 191, []).
Proof.
  intros Hn Hr Hb. unfold decode_byte. cbn [d_needed d_seen d_cp d_lower d_upper].
  do 3 zbool.
  rewrite land63, lor_shiftl_add by (change (2 ^ 6) with 64; Z.div_mod_to_equations; lia).
  change (2 ^ 6) with 64.
  replace ((b mod 64)) with (b - 128) by (Z.div_mod_to_equations; lia). reflexivity.
Qed.

Lemma decode_utf8_of_cp (c : Z) (rest : list Z) :
  scalar c -> decode_go d_init (utf8_of_cp c ++ rest) = c :: decode_go d_init rest.
Proof.
  intros [Hc Hs].
  destruct (Z.lt_ge_cases c 128) as [H1|H1];
    [|destruct (Z.lt_ge_cases c 2048) as [H2|H2];
      [|destruct (Z.lt_ge_cases c 65536) as [H3|H3]]].
  - rewrite utf8_1 by lia. cbn [app decode_go]. rewrite decode_ascii by lia. reflexivity.
  - rewrite utf8_2 by lia. cbn [app decode_go].
    rewrite decode_start2 by (Z.div_mod_to_equations; lia). cbn [app decode_go].
    rewrite decode_cont by (Z.div_mod_to_equations; lia). zbool. cbn [app decode_go].
    f_equal. Z.div_mod_to_equations. lia.
  - rewrite utf8_3 by lia. cbn [app decode_go].
    rewrite decode_start3 by (Z.div_mod_to_equations; lia). cbn [app decode_go].
    destruct (224 + c / 4096 =? 224) eqn:E1; [apply Z.eqb_eq in E1|apply Z.eqb_neq in E1];
    destruct (224 + c / 4096 =? 237) eqn:E2; [apply Z.eqb_eq in E2| apply Z.eqb_neq in E2
                                             |apply Z.eqb_eq in E2| apply Z.eqb_neq in E2];
    try (exfalso; lia);
    rewrite decode_cont by (Z.div_mod_to_equations; lia); zbool; cbn [app decode_go];
    rewrite decode_cont by (Z.div_mod_to_equations; lia); zbool; cbn [app decode_go]; cbn [app];
    f_equal; Z.div_mod_to_equations; lia.
  - rewrite utf8_4 by lia. cbn [app decode_go].
    rewrite decode_start4 by (Z.div_mod_to_equations; lia). cbn [app decode_go].
    destruct (240 + c / 262144 =? 240) eqn:E1; [apply Z.eqb_eq in E1|apply Z.eqb_neq in E1];
    destruct (240 + c / 262144 =? 244) eqn:E2; [apply Z.eqb_eq in E2| apply Z.eqb_neq in E2
                                                |apply Z.eqb_eq in E2| apply Z.eqb_neq in E2];
    try (exfalso; lia);
    rewrite decode_cont by (Z.div_mod_to_equations; lia); zbool; cbn [app decode_go];
    rewrite decode_cont by (Z.div_mod_to_equations; lia); zbool; cbn [app decode_go];
    rewrite decode_cont by (Z.div_mod_to_equations; lia); zbool; cbn [app decode_go]; cbn [app];
    f_equal; Z.div_mod_to_equations; lia.
Qed.

Lemma utf8_of_cp_bytes (c : Z) : scalar c -> Bytes (utf8_of_cp c).
Proof.
  intros [Hc Hs].
  destruct (Z.lt_ge_cases c 128) as [H1|H1];
    [|destruct (Z.lt_ge_cases c 2048) as [H2|H2];
      [|destruct (Z.lt_ge_cases c 65536) as [H3|H3]]].
  - rewrite utf8_1 by lia. repeat constructor; lia.
  - rewrite utf8_2 by lia.
    repeat (apply List.Forall_cons; [Z.div_mod_to_equations; lia|]). apply List.Forall_nil.
  - rewrite utf8_3 by lia.
    repeat (apply List.Forall_cons; [Z.div_mod_to_equations; lia|]). apply List.Forall_nil.
  - rewrite utf8_4 by lia.
    repeat (apply List.Forall_cons; [Z.div_mod_to_equations; lia|]). apply List.Forall_nil.
Qed.

Lemma decode_flat (cs rest : list Z) :
  Forall scalar cs -> decode_go d_init (flat_map utf8_of_cp cs ++ rest) = cs ++ decode_go d_init rest.
Proof.
  induction 1 as [|c cs Hc _ IH]; [reflexivity|].
  cbn [flat_map]. rewrite <- app_assoc, (decode_utf8_of_cp c _ Hc), IH. reflexivity.
Qed.

Lemma flat_utf8_bytes (cs : list Z) : Forall scalar cs -> Bytes (flat_map utf8_of_cp cs).
Proof.
  induction 1 as [|c cs Hc _ IH]; [constructor|].
  cbn [flat_map]. apply Forall_app. split; [apply utf8_of_cp_bytes, Hc|exact IH].
Qed.

Lemma code_points_wf (n : nat) (s : list Z) :
  (length s <= n)%nat -> well_formed s = true ->
  Forall scalar (code_points s) /\ flat_map utf16_of_cp (code_points s) = s.
Proof.
  revert s; induction n as [|n IH]; intros s Hl W.
  - destruct s; [split; [constructor|reflexivity]|simpl in Hl; lia].
  - destruct s as [|u r]; [split; [constructor|reflexivity]|].
    cbn [well_formed] in W. apply andb_prop in W as [Wu Wr].
    apply andb_prop in Wu as [W0 W1]. apply Z.leb_le in W0. apply Z.ltb_lt in W1.
    cbn [code_points]. destruct (is_high u) eqn:Hh.
    + apply is_high_spec in Hh.
      destruct r as [|v r']; [discriminate Wr|]. apply andb_prop in Wr as [Hv Wr'].
      rewrite Hv. apply is_low_spec in Hv.
      destruct (IH r') as [F E]; [simpl in Hl; lia|exact Wr'|].
      rewrite Z.shiftl_mul_pow2, !land1023 by lia. change (2 ^ 10) with 1024.
      pose proof (Z.mod_pos_bound u 1024 ltac:(lia)). pose proof (Z.mod_pos_bound v 1024 ltac:(lia)).
      split.
      * constructor; [|exact F]. split; Z.div_mod_to_equations; lia.
      * cbn [flat_map]. rewrite E. unfold utf16_of_cp. zbool.
        rewrite shr_div, land1023 by lia. change (2 ^ 10) with 1024. cbn [app].
        f_equal; [|f_equal]; Z.div_mod_to_equations; lia.
    + apply andb_prop in Wr as [Nl Wr]. apply negb_true_iff in Nl. rewrite Nl.
      apply not_true_iff_false in Hh. apply not_true_iff_false in Nl.
      rewrite is_high_spec in Hh. rewrite is_low_spec in Nl.
      destruct (IH r) as [F E]; [simpl in Hl; lia|exact Wr|].
      split.
      * constructor; [|exact F]. split; lia.
      * cbn [flat_map]. rewrite E. unfold utf16_of_cp. zbool. reflexivity.
Qed.

Lemma utf8_roundtrip (P : list Z) :
  well_formed P = true -> Bytes (utf8_encode P) /\ utf8_decode (utf8_encode P) = P.
Proof.
  intros W. destruct (code_points_wf (length P) P (le_n _) W) as [F E].
  unfold utf8_decode, utf8_encode. split; [apply flat_utf8_bytes, F|].
  rewrite <- (app_nil_r (flat_map utf8_of_cp (code_points P))).
  rewrite decode_flat by exact F.
  replace (decode_go d_init []) with (@nil Z) by reflexivity.
  rewrite app_nil_r. exact E.
Qed.

(** *** [encrypt] and [decrypt] on well-formed inputs *)

Lemma encrypt_ok (K iv P : list Z) :
  length K = 32%nat -> length iv = 16%nat ->
  encrypt K iv P = Ok (hex_encode iv ++ [58] ++ hex_encode (cbc_encrypt K iv (utf8_encode P))).
Proof. intros LK Liv. unfold encrypt, encrypt_try, cipheriv_check. rewrite LK, Liv. reflexivity. Qed.

Lemma decrypt_ok (K iv C : list Z) :
  length K = 32%nat -> blk 16 iv -> Bytes C -> (0 < length C)%nat -> (length C mod 16 = 0)%nat ->
  decrypt K (hex_encode iv ++ [58] ++ hex_encode C) =
  match pkcs7_unpad (cbc_dec_blocks K iv (blocks C)) with
  | Some p => Ok (utf8_decode p)
  | None => Err "Failed to decrypt data"
  end.
Proof.
  intros LK [Liv Biv] BC LC MC. unfold decrypt, decrypt_try.
  rewrite split_two by apply hex_encode_no_colon.
  rewrite !bool_decide_false
    by (intros Ee; apply (f_equal (@length Z)) in Ee; rewrite hex_encode_length in Ee; simpl in Ee; lia).
  cbn [orb]. rewrite !hex_decode_encode by assumption.
  unfold cipheriv_check. rewrite LK, Liv. cbn [negb Nat.eqb].
  rewrite hex_encode_length, Nat.odd_even.
  unfold cbc_decrypt. rewrite MC.
  replace (length C =? 0)%nat with false by (symmetry; apply Nat.eqb_neq; lia).
  cbn [orb negb Nat.eqb].
  destruct (pkcs7_unpad (cbc_dec_blocks K iv (blocks C))); reflexivity.
Qed.

Lemma decrypt_no_colon (K s : list Z) : ~ In 58 s -> decrypt K s = Err "Failed to decrypt data".
Proof.
  intros N. unfold decrypt, decrypt_try. rewrite split_none; [reflexivity|].
  apply List.Forall_forall. intros x Hx ->. exact (N Hx).
Qed.

Lemma decrypt_empty_iv (K s : list Z) : decrypt K (58 :: s) = Err "Failed to decrypt data".
Proof.
  unfold decrypt, decrypt_try. cbn [js_split_char]. rewrite Z.eqb_refl.
  destruct (js_split_char 58 s); reflexivity.
Qed.

(** C7 (counterexample): with a 31-byte key, [encrypt] fails with the
    generic "Failed to encrypt data"; [decrypt] has no key check of its
    own: on an input whose IV field is not hex, the error raised is the
    IV's, and what the caller sees is the generic "Failed to decrypt
    data". *)
Lemma short_key_generic_errors :
  encrypt (repeat 0 31) demo_iv [104; 105] = Err "Failed to encrypt data" /\
  decrypt_try (repeat 0 31) [122; 122; 58; 48; 48] = Err "Invalid initialization vector" /\
  decrypt (repeat 0 31) [122; 122; 58; 48; 48] = Err "Failed to decrypt data".
Proof. vm_compute. repeat split. Qed.

(** C7 (amended): when the key is not 32 bytes, [encrypt]'s own length
    check fails before any cipher is created and its [catch] replaces the
    message by "Failed to encrypt data"; [decrypt] fails on every input
    with "Failed to decrypt data" (the key length is only checked inside
    [createDecipheriv], after the format and IV checks). *)
Theorem bad_key_always_fails (K iv text s : list Z) :
  length K <> 32%nat ->
  encrypt_try K iv text = Err "Encryption key must be 32 bytes" /\
  encrypt K iv text = Err "Failed to encrypt data" /\
  decrypt K s = Err "Failed to decrypt data".
Proof.
  intros HK.
  assert (E : encrypt_try K iv text = Err "Encryption key must be 32 bytes").
  { unfold encrypt_try.
    replace (length K =? 32)%nat with false by (symmetry; apply Nat.eqb_neq; exact HK).
    reflexivity. }
  split; [exact E|]. split; [unfold encrypt; rewrite E; reflexivity|].
  unfold decrypt. destruct (decrypt_try_bad_key K s HK) as [e ->]. reflexivity.
Qed.

Lemma bad_key_always_fails_witness :
  length (repeat 0 31) <> 32%nat /\
  decrypt (repeat 0 31) [48; 48; 58; 48; 48] = Err "Failed to decrypt data".
Proof.
  assert (H : length (repeat 0 31) <> 32%nat) by (simpl; lia).
  split; [exact H|].
  exact (proj2 (proj2 (bad_key_always_fails (repeat 0 31) demo_iv [] [48; 48; 58; 48; 48] H))).
Defined.

(** C6 (counterexample): the round trip loses a lone surrogate (it is
    encoded as U+FFFD), and a ciphertext with a third ':'-field appended
    still decrypts to the plaintext. *)
Lemma roundtrip_counterexamples :
  match encrypt demo_key demo_iv [55296] with
  | Ok s => decrypt demo_key s = Ok [65533]
  | Err _ => False
  end /\
  match encrypt demo_key demo_iv [104; 105] with
  | Ok s => decrypt demo_key (s ++ [58; 120]) = Ok [104; 105]
  | Err _ => False
  end.
Proof. split; vm_compute; reflexivity. Qed.

(** C6 (amended): for a 32-byte key, a 16-byte IV and a plaintext that is
    well-formed UTF-16 (no unpaired surrogate), [encrypt] succeeds and
    [decrypt] of its output gives the plaintext back; [decrypt] fails
    with "Failed to decrypt data" on every input that has no ':' and on
    every input whose IV field is empty. *)
Theorem roundtrip_well_formed (K iv P : list Z) :
  blk 32 K -> blk 16 iv -> well_formed P = true ->
  (exists s, encrypt K iv P = Ok s /\ decrypt K s = Ok P) /\
  (forall s, ~ In 58 s -> decrypt K s = Err "Failed to decrypt data") /\
  (forall s, decrypt K (58 :: s) = Err "Failed to decrypt data").
Proof.
  intros HK Hiv HP.
  split; [|split; intros s; [apply decrypt_no_colon|apply decrypt_empty_iv]].
  destruct (round_keys_ok K HK) as [LK FK].
  assert (Eb : forall b, blk 16 b -> blk 16 (aes_encrypt_block K b))
    by (intros b Hb; exact (proj1 (aes_block_inverse K b LK FK Hb))).
  assert (DE : forall b, blk 16 b -> aes_decrypt_block K (aes_encrypt_block K b) = b)
    by (intros b Hb; exact (proj2 (aes_block_inverse K b LK FK Hb))).
  destruct (utf8_roundtrip P HP) as [Bp Rp].
  destruct (pkcs7_pad_facts (utf8_encode P) Bp) as (Bpad & Mpad & Lpad).
  destruct (blocks_blk _ Mpad Bpad) as [Fb Cb].
  destruct (cbc_roundtrip _ _ Eb DE iv _ Hiv Fb) as (cs & Ec & Fc & Lc & Dc).
  assert (Lb : length (pkcs7_pad (utf8_encode P)) =
               (16 * length (blocks (pkcs7_pad (utf8_encode P))))%nat)
    by (rewrite <- (length_concat_blk _ Fb), Cb; reflexivity).
  exists (hex_encode iv ++ [58] ++ hex_encode (concat cs)). split.
  - rewrite (encrypt_ok K iv P (proj1 HK) (proj1 Hiv)).
    unfold cbc_encrypt, cbc_enc_blocks. rewrite Ec. reflexivity.
  - rewrite (decrypt_ok K iv (concat cs) (proj1 HK) Hiv (concat_blk_bytes cs Fc)).
    + rewrite (blocks_concat cs Fc). unfold cbc_dec_blocks.
      rewrite Dc, Cb, pkcs7_unpad_pad, Rp. reflexivity.
    + rewrite (length_concat_blk cs Fc). lia.
    + rewrite (length_concat_blk cs Fc), Nat.mul_comm. apply Nat.Div0.mod_mul.
Qed.

Lemma roundtrip_well_formed_witness :
  blk 32 demo_key /\ blk 16 demo_iv /\ well_formed [104; 105] = true /\
  exists s, encrypt demo_key demo_iv [104; 105] = Ok s /\ decrypt demo_key s = Ok [104; 105].
Proof.
  assert (HK : blk 32 demo_key).
  { split; [reflexivity|]. cbv [demo_key]. simpl.
    repeat (apply List.Forall_cons; [lia|]). apply List.Forall_nil. }
  assert (Hiv : blk 16 demo_iv).
  { split; [reflexivity|]. cbv [demo_iv]. simpl.
    repeat (apply List.Forall_cons; [lia|]). apply List.Forall_nil. }
  assert (HP : well_formed [104; 105] = true) by reflexivity.
  split; [exact HK|]. split; [exact Hiv|]. split; [exact HP|].
  exact (proj1 (roundtrip_well_formed demo_key demo_iv [104; 105] HK Hiv HP)).
Defined.


End CryptoFacts.

Module ApproverExtra.
Import Approver.
Local Open Scope string_scope.

Lemma settle_fields (x : Settled) (m : WSM) :
  autoReconnect (settle_pending x m) = autoReconnect m /\
  maxReconnectAttempts (settle_pending x m) = maxReconnectAttempts m /\
  reconnectAttempts (settle_pending x m) = reconnectAttempts m /\
  next_timer (settle_pending x m) = next_timer m /\
  url_valid (settle_pending x m) = url_valid m.
Proof. unfold settle_pending. destruct (pendingResponse m); repeat split. Qed.

Lemma flush_fields (q : list Wire) (m : WSM) :
  autoReconnect (flush q m) = autoReconnect m /\
  maxReconnectAttempts (flush q m) = maxReconnectAttempts m /\
  reconnectAttempts (flush q m) = reconnectAttempts m /\
  next_timer (flush q m) = next_timer m /\
  url_valid (flush q m) = url_valid m.
Proof.
  revert m; induction q as [|x q IH]; intros m; simpl; [repeat split|].
  rewrite !(proj1 (IH _)), !(proj1 (proj2 (IH _))), !(proj1 (proj2 (proj2 (IH _)))),
    !(proj1 (proj2 (proj2 (proj2 (IH _))))), !(proj2 (proj2 (proj2 (proj2 (IH _))))).
  destruct (open_socket m); repeat split.
Qed.

Lemma disconnect_fields (m : WSM) :
  autoReconnect (disconnect m) = false /\
  maxReconnectAttempts (disconnect m) = maxReconnectAttempts m /\
  reconnectAttempts (disconnect m) = reconnectAttempts m /\
  next_timer (disconnect m) = next_timer m /\
  url_valid (disconnect m) = url_valid m /\
  pendingResponse (disconnect m) = None /\
  ws (disconnect m) = None.
Proof.
  unfold disconnect, run_stmts, disconnect_body. cbn [fold_left].
  unfold settle_pending, close_socket. cbn.
  repeat (case_match; cbn in *); repeat split; congruence.
Qed.

Lemma schedule_bound (m : WSM) :
  (reconnectAttempts m <= maxReconnectAttempts m)%nat ->
  (reconnectAttempts (scheduleReconnect m) <= maxReconnectAttempts (scheduleReconnect m))%nat.
Proof.
  intros H. unfold scheduleReconnect.
  destruct (maxReconnectAttempts m <=? reconnectAttempts m)%nat eqn:E; [exact H|].
  apply Nat.leb_gt in E. simpl. lia.
Qed.

Lemma connect_bound (m : WSM) :
  (reconnectAttempts m <= maxReconnectAttempts m)%nat ->
  (reconnectAttempts (connect m) <= maxReconnectAttempts (connect m))%nat.
Proof.
  intros H. unfold connect. destruct (url_valid m); [exact H|].
  destruct (autoReconnect m); [now apply schedule_bound|exact H].
Qed.

Lemma step_bound (i : Input) (m : WSM) :
  (reconnectAttempts m <= maxReconnectAttempts m)%nat ->
  (reconnectAttempts (step i m) <= maxReconnectAttempts (step i m))%nat.
Proof.
  intros H. destruct i; simpl.
  - unfold send. destruct (open_socket m); exact H.
  - unfold sendAndWaitForApproval. destruct (pendingResponse m); [exact H|].
    destruct (open_socket _); exact H.
  - destruct (disconnect_fields m) as (_ & -> & -> & _). exact H.
  - unfold reconnect. apply connect_bound. simpl. lia.
  - unfold flushQueue. destruct (flush_fields (messageQueue (set_attempts 0 (set_state s OPEN m)))
      (set_queue [] (set_attempts 0 (set_state s OPEN m)))) as (_ & -> & -> & _). simpl. lia.
  - unfold run_stmts. cbn [fold_left].
    destruct (settle_fields (SRejected "WebSocket disconnected") (set_ws None (set_state s CLOSED m)))
      as (Ea & Em & Er & _).
    destruct (autoReconnect _); [apply schedule_bound|]; rewrite ?Em, ?Er; exact H.
  - unfold run_stmts. cbn [fold_left].
    destruct (settle_fields (SRejected e) (set_ws None (set_state s CLOSING m))) as (_ & -> & -> & _).
    exact H.
  - unfold handleMessage. destruct (pendingResponse m); [|exact H].
    destruct (settle_fields (SResolved (interpret_reply d)) m) as (_ & -> & -> & _). exact H.
  - unfold on_timeout. destruct (pendingResponse m); [|exact H].
    destruct (Nat.eq_dec r n); [exact H|exact H].
  - unfold on_fire. destruct (decide _); [|exact H]. apply connect_bound. exact H.
Qed.

Lemma run_bound (is : list Input) (m : WSM) :
  (reconnectAttempts m <= maxReconnectAttempts m)%nat ->
  (reconnectAttempts (run is m) <= maxReconnectAttempts (run is m))%nat.
Proof. revert m; induction is as [|i is IH]; intros m H; [exact H|]. apply IH, step_bound, H. Qed.

(** With auto-reconnect off, no event other than [reconnect()] turns it
    on or creates a reconnect timer. *)
Lemma quiet_step (i : Input) (m : WSM) :
  i <> IReconnect -> autoReconnect m = false ->
  autoReconnect (step i m) = false /\ next_timer (step i m) = next_timer m.
Proof.
  intros Hi H. destruct i; simpl; try (exfalso; apply Hi; reflexivity).
  - unfold send. destruct (open_socket m); split; assumption || reflexivity.
  - unfold sendAndWaitForApproval. destruct (pendingResponse m); [split; [assumption|reflexivity]|].
    destruct (open_socket _); split; assumption || reflexivity.
  - destruct (disconnect_fields m) as (-> & _ & _ & -> & _). split; reflexivity.
  - unfold flushQueue. destruct (flush_fields (messageQueue (set_attempts 0 (set_state s OPEN m)))
      (set_queue [] (set_attempts 0 (set_state s OPEN m)))) as (-> & _ & _ & -> & _).
    split; [exact H|reflexivity].
  - unfold run_stmts. cbn [fold_left].
    destruct (settle_fields (SRejected "WebSocket disconnected") (set_ws None (set_state s CLOSED m)))
      as (Ea & _ & _ & Et & _).
    rewrite Ea. simpl. rewrite H. split; [rewrite Ea; exact H|rewrite Et; reflexivity].
  - unfold run_stmts. cbn [fold_left].
    destruct (settle_fields (SRejected e) (set_ws None (set_state s CLOSING m))) as (-> & _ & _ & -> & _).
    split; [exact H|reflexivity].
  - unfold handleMessage. destruct (pendingResponse m); [|split; [exact H|reflexivity]].
    destruct (settle_fields (SResolved (interpret_reply d)) m) as (-> & _ & _ & -> & _).
    split; [exact H|reflexivity].
  - unfold on_timeout. destruct (pendingResponse m); [|split; [exact H|reflexivity]].
    destruct (Nat.eq_dec r n); split; assumption || reflexivity.
  - unfold on_fire. destruct (decide _); [|split; [exact H|reflexivity]].
    unfold connect. simpl. destruct (url_valid m); simpl; [split; [exact H|reflexivity]|].
    rewrite H. split; [exact H|reflexivity].
Qed.

Lemma sends_queue (m : WSM) (s : nat) (xs : list (Z * string * string)) :
  ws m = Some s -> sockets m !! s = Some CONNECTING ->
  run (map (fun '(now, msg, title) => ISend now msg title) xs) m =
  set_queue (messageQueue m ++
    map (fun '(now, msg, title) =>
           WItem now (if bool_decide (title = "")
                      then "Welcome my guy to the notification app!" else title) msg) xs)%list m.
Proof.
  revert m; induction xs as [|[[now msg] title] xs IH]; intros m Hw Hs.
  - destruct m; simpl; rewrite app_nil_r; reflexivity.
  - cbn [map run]. simpl step. unfold send.
    assert (O : open_socket m = None) by (unfold open_socket; rewrite Hw, Hs; reflexivity).
    rewrite O. cbn [snd]. rewrite IH by assumption. cbn [map]. simpl.
    rewrite <- app_assoc. reflexivity.
Qed.

Lemma open_socket_opened (m : WSM) (s : nat) :
  ws m = Some s -> (s < length (sockets m))%nat -> open_socket (set_state s OPEN m) = Some s.
Proof.
  intros Hw Hlt. unfold open_socket, set_state. cbn [ws sockets set_sockets].
  rewrite Hw, list_lookup_insert.
  rewrite (decide_True (P := s = s /\ (s < length (sockets m))%nat)) by (split; [reflexivity|exact Hlt]).
  rewrite decide_True by reflexivity. reflexivity.
Qed.

Lemma run_app (is1 is2 : list Input) (m : WSM) : run (is1 ++ is2) m = run is2 (run is1 m).
Proof. revert m; induction is1 as [|i is1 IH]; intros m; [reflexivity|apply IH]. Qed.

Lemma quiet_run (is : list Input) (m : WSM) :
  Forall (fun i => i <> IReconnect) is -> autoReconnect m = false ->
  autoReconnect (run is m) = false /\ next_timer (run is m) = next_timer m.
Proof.
  intros F; revert m; induction F as [|i is Hi _ IH]; intros m H; [split; [exact H|reflexivity]|].
  cbn [run]. destruct (quiet_step i m Hi H) as [A T].
  destruct (IH _ A) as [A' T']. split; [exact A'|congruence].
Qed.

(** X1: when [maxReconnectAttempts] is a non-negative integer (the
    default 5), on every reachable manager the number of reconnect
    attempts made since the last successful open never exceeds it. *)
Theorem reconnect_attempts_bounded (m : WSM) :
  reachable m -> (reconnectAttempts m <= maxReconnectAttempts m)%nat.
Proof.
  intros (is & u & a & n & ->). apply run_bound. unfold init.
  apply connect_bound. simpl. lia.
Qed.

Lemma reconnect_attempts_bounded_witness :
  reachable (run [IFire 0; IFire 1; IFire 2] (init false true 2)) /\
  reconnectAttempts (run [IFire 0; IFire 1; IFire 2] (init false true 2)) = 2%nat /\
  (reconnectAttempts (run [IFire 0; IFire 1; IFire 2] (init false true 2)) <=
   maxReconnectAttempts (run [IFire 0; IFire 1; IFire 2] (init false true 2)))%nat.
Proof.
  assert (H : reachable (run [IFire 0; IFire 1; IFire 2] (init false true 2)))
    by (exists [IFire 0; IFire 1; IFire 2], false, true, 2%nat; reflexivity).
  split; [exact H|]. split; [vm_compute; reflexivity|].
  exact (reconnect_attempts_bounded _ H).
Defined.

(** X2: messages given to [send] while [this.ws] is a socket that is
    still connecting are queued; if the next event after those sends is
    the open event of that same socket, they are all written to it, in
    the order they were sent, after those already queued, and the queue
    is then empty. *)
Theorem queued_sends_delivered_in_order (m : WSM) (s : nat) (xs : list (Z * string * string)) :
  ws m = Some s -> sockets m !! s = Some CONNECTING ->
  let items := map (fun '(now, msg, title) =>
                      WItem now (if bool_decide (title = "")
                                 then "Welcome my guy to the notification app!" else title) msg) xs in
  let m' := run (map (fun '(now, msg, title) => ISend now msg title) xs ++ [IOpen s]) m in
  trace m' = (trace m ++ map (ATransmit s) (messageQueue m ++ items))%list /\
  messageQueue m' = [].
Proof.
  intros Hw Hs items m'. subst m'. rewrite run_app, (sends_queue m s xs Hw Hs).
  cbn [run step]. unfold flushQueue.
  assert (Hlt : (s < length (sockets m))%nat) by (eapply lookup_lt_Some; exact Hs).
  rewrite (ApproverFacts.flush_current _ _ s).
  - simpl. split; reflexivity.
  - etransitivity; [|apply open_socket_opened; [exact Hw|simpl; exact Hlt]]. reflexivity.
Qed.

Lemma queued_sends_delivered_in_order_witness :
  ws (init true true 5) = Some 0%nat /\ sockets (init true true 5) !! 0%nat = Some CONNECTING /\
  trace (run [ISend 1 "hello" ""; ISend 2 "bye" "t"; IOpen 0] (init true true 5)) =
    [ATransmit 0 (WItem 1 "Welcome my guy to the notification app!" "hello");
     ATransmit 0 (WItem 2 "t" "bye")].
Proof.
  assert (Hw : ws (init true true 5) = Some 0%nat) by reflexivity.
  assert (Hs : sockets (init true true 5) !! 0%nat = Some CONNECTING) by reflexivity.
  split; [exact Hw|]. split; [exact Hs|].
  exact (proj1 (queued_sends_delivered_in_order (init true true 5) 0
                  [(1, "hello", ""); (2, "bye", "t")] Hw Hs)).
Defined.

(** X3: [disconnect()] rejects and clears the pending request, drops
    [this.ws] and turns auto-reconnect off; after it, until [reconnect()]
    is called, no event turns auto-reconnect back on or schedules a new
    reconnect timer. *)
Theorem disconnect_stops_reconnects (m : WSM) (is : list Input) :
  Forall (fun i => i <> IReconnect) is ->
  pendingResponse (disconnect m) = None /\ ws (disconnect m) = None /\
  autoReconnect (run is (disconnect m)) = false /\
  next_timer (run is (disconnect m)) = next_timer (disconnect m).
Proof.
  intros F. destruct (disconnect_fields m) as (A & _ & _ & _ & _ & P & W).
  split; [exact P|]. split; [exact W|]. exact (quiet_run is _ F A).
Qed.

Lemma disconnect_stops_reconnects_witness :
  Forall (fun i => i <> IReconnect) [IClose 0; IFire 0; IAwait "x"] /\
  next_timer (run [IClose 0; IFire 0; IAwait "x"] (disconnect Tokens.open_state)) =
  next_timer (disconnect Tokens.open_state).
Proof.
  assert (F : Forall (fun i => i <> IReconnect) [IClose 0; IFire 0; IAwait "x"])
    by (repeat constructor; discriminate).
  split; [exact F|].
  exact (proj2 (proj2 (proj2 (disconnect_stops_reconnects Tokens.open_state _ F)))).
Defined.

(** X4: while request [r] is pending, any incoming message settles it:
    the promise is resolved (never rejected), the slot is cleared, and
    the value counts as approved exactly when the message is JSON whose
    [status] is the string "approved". *)
Theorem message_settles_pending (m : WSM) (r : nat) (d : Reply) :
  pendingResponse m = Some r ->
  trace (handleMessage d m) = (trace m ++ [ASettle r (SResolved (interpret_reply d))])%list /\
  pendingResponse (handleMessage d m) = None /\
  (is_approved (interpret_reply d) = true <-> exists fb, d = RJson (Some "approved") fb).
Proof.
  intros P. unfold handleMessage, settle_pending. rewrite P. cbn.
  split; [reflexivity|]. split; [reflexivity|].
  destruct d as [[st|] fb|t]; cbn.
  - destruct (bool_decide (st = "approved")) eqn:E; cbn.
    + rewrite E. apply bool_decide_eq_true in E. subst. split; [intros _; exists fb; reflexivity|auto].
    + destruct (bool_decide (st = "rejected")); cbn;
        (split; [discriminate|intros [fb' Ee]; inversion Ee; subst;
                 rewrite bool_decide_eq_true_2 in E by reflexivity; discriminate]).
  - split; [discriminate|intros [fb' Ee]; discriminate].
  - split; [discriminate|intros [fb' Ee]; discriminate].
Qed.

Lemma message_settles_pending_witness :
  pendingResponse awaiting_state = Some 0%nat /\
  is_approved (interpret_reply (RJson (Some "approved") None)) = true.
Proof.
  assert (P : pendingResponse awaiting_state = Some 0%nat) by (vm_compute; reflexivity).
  split; [exact P|].
  apply (proj2 (proj2 (proj2 (message_settles_pending awaiting_state 0 (RJson (Some "approved") None) P)))).
  exists None. reflexivity.
Defined.

(** X5: when nothing is pending and [this.ws] is not open,
    [sendAndWaitForApproval] issues the request and rejects it at once
    with "WebSocket not connected": nothing is written and, unlike with
    [send], nothing is queued, and the slot is free again. *)
Theorem await_without_open_socket (m : WSM) (id : string) :
  pendingResponse m = None -> open_socket m = None ->
  fst (sendAndWaitForApproval id m) = AwIssued (next_req m) /\
  trace (snd (sendAndWaitForApproval id m)) =
    (trace m ++ [ASettle (next_req m) (SRejected "WebSocket not connected")])%list /\
  pendingResponse (snd (sendAndWaitForApproval id m)) = None /\
  messageQueue (snd (sendAndWaitForApproval id m)) = messageQueue m.
Proof.
  intros P O. unfold sendAndWaitForApproval. rewrite P.
  replace (open_socket (set_pending (Some (next_req m)) (S (next_req m)) m)) with (open_socket m)
    by reflexivity.
  rewrite O. cbn. repeat split.
Qed.

Lemma await_without_open_socket_witness :
  pendingResponse (init true true 5) = None /\ open_socket (init true true 5) = None /\
  fst (sendAndWaitForApproval "req" (init true true 5)) = AwIssued 0.
Proof.
  assert (P : pendingResponse (init true true 5) = None) by reflexivity.
  assert (O : open_socket (init true true 5) = None) by reflexivity.
  split; [exact P|]. split; [exact O|].
  exact (proj1 (await_without_open_socket (init true true 5) "req" P O)).
Defined.

End ApproverExtra.

Module TokensExtra.
Import Approver Tokens ShortcutTool.
Local Open Scope string_scope.

Lemma plan_key_ne (draw k : string) :
  k = "executionToken" \/ k = "planningToken" -> String.append "plan_" draw <> k.
Proof. intros [-> | ->]; discriminate. Qed.

Lemma length16_ne (draw k : string) :
  String.length draw = 16%nat -> (String.length k < 16)%nat -> draw <> k.
Proof. intros L Lk ->. lia. Qed.

Lemma plan_store (draw : string) (flags : bool * bool) (st : Store) :
  snd (plan draw flags st) =
  <[defaultUserId := <[String.append "plan_" draw := UEntry (EPlanned (Some flags))]>
                       (<["planningToken" := UStr (String.append "plan_" draw)]>
                          (user_obj st defaultUserId))]> st.
Proof.
  unfold plan, generatePlanningToken. cbn [snd].
  unfold user_obj at 1. rewrite lookup_insert_eq. cbn [default].
  rewrite insert_insert_eq. unfold id. rewrite insert_insert_eq. reflexivity.
Qed.

(** X6: the [plan] tool (and [generatePlanningToken] in it) leaves the
    execution-token check of every user as it was, and keeps every stored
    code except under the new planning token's own key and the
    [planningToken] field. *)
Theorem plan_keeps_execution_state (draw : string) (flags : bool * bool) (st : Store) (u tok : string) :
  token_valid (snd (plan draw flags st)) u tok = token_valid st u tok /\
  (tok <> String.append "plan_" draw -> tok <> "planningToken" ->
   lookup_code (snd (plan draw flags st)) u tok = lookup_code st u tok).
Proof.
  rewrite plan_store. unfold token_valid, lookup_code, user_obj.
  destruct (decide (u = defaultUserId)) as [->|Hu].
  - rewrite lookup_insert_eq. split.
    + rewrite lookup_insert_ne by (apply plan_key_ne; auto).
      rewrite lookup_insert_ne by discriminate.
      destruct (st !! defaultUserId); reflexivity.
    + intros H1 H2. rewrite lookup_insert_ne by congruence. rewrite lookup_insert_ne by congruence.
      destruct (st !! defaultUserId); reflexivity.
  - rewrite lookup_insert_ne by congruence. split; [reflexivity|intros; reflexivity].
Qed.

(** X7: drawing a new execution token (16 characters) keeps the user's
    planning token and every code stored under another key: the codes of
    earlier execution tokens stay in the store. *)
Theorem execution_token_keeps_planning (draw u : string) (st : Store) (u' tok : string) :
  String.length draw = 16%nat ->
  planning_token_of (snd (generateExecutionToken draw u st)) u' = planning_token_of st u' /\
  (tok <> draw -> tok <> "executionToken" ->
   lookup_code (snd (generateExecutionToken draw u st)) u' tok = lookup_code st u' tok).
Proof.
  intros L. unfold generateExecutionToken, planning_token_of, lookup_code, user_obj. cbn [snd].
  destruct (decide (u' = u)) as [->|Hu].
  - rewrite lookup_insert_eq. split.
    + rewrite lookup_insert_ne by (first [apply length16_ne | apply not_eq_sym, length16_ne]; [exact L|cbn; lia]).
      rewrite lookup_insert_ne by discriminate.
      destruct (st !! u); reflexivity.
    + intros H1 H2. rewrite !lookup_insert_ne by congruence.
      destruct (st !! u); reflexivity.
  - rewrite lookup_insert_ne by congruence. split; [reflexivity|intros; reflexivity].
Qed.

Lemma execution_token_keeps_planning_witness :
  String.length "a1b2c3d4e5f6g7h8" = 16%nat /\
  planning_token_of (snd (generateExecutionToken "a1b2c3d4e5f6g7h8" defaultUserId
                            (snd (plan "p1q2r3s4t5u6v7w8" (true, false) ∅)))) defaultUserId =
  Some "plan_p1q2r3s4t5u6v7w8".
Proof.
  assert (L : String.length "a1b2c3d4e5f6g7h8" = 16%nat) by reflexivity.
  split; [exact L|].
  rewrite (proj1 (execution_token_keeps_planning "a1b2c3d4e5f6g7h8" defaultUserId
                    (snd (plan "p1q2r3s4t5u6v7w8" (true, false) ∅)) defaultUserId "" L)).
  reflexivity.
Defined.


End TokensExtra.

Module PortUrlFacts.
Import Tokens.
Local Open Scope string_scope.

Lemma str_app_cons (c : Ascii.ascii) (s t : string) :
  String.append (String c s) t = String c (String.append s t).
Proof. reflexivity. Qed.

Lemma str_app_nil_r (s : string) : String.append s "" = s.
Proof. induction s as [|c s IH]; [reflexivity|rewrite str_app_cons; congruence]. Qed.

Lemma str_app_assoc (a b c : string) :
  String.append (String.append a b) c = String.append a (String.append b c).
Proof. induction a as [|x a IH]; [reflexivity|rewrite !str_app_cons; simpl; congruence]. Qed.

Lemma str_length_app (a b : string) :
  String.length (String.append a b) = (String.length a + String.length b)%nat.
Proof. induction a as [|x a IH]; [reflexivity|rewrite !str_app_cons; simpl; congruence]. Qed.

Lemma prefix_app (a s : string) : String.prefix a (String.append a s) = true.
Proof.
  induction a as [|x a IH]; [destruct s; reflexivity|]. rewrite str_app_cons. cbn.
  destruct (Ascii.ascii_dec x x) as [_|n]; [exact IH|now exfalso].
Qed.

Lemma substring_all (s : string) : String.substring 0 (String.length s) s = s.
Proof. induction s as [|c s IH]; simpl; congruence. Qed.

Lemma nodot_cons (c : Ascii.ascii) (s : string) :
  String.index 0 "." (String c s) = None <->
  c <> Ascii.ascii_of_nat 46 /\ String.index 0 "." s = None.
Proof.
  assert (Hp : String.prefix "." (String c s) =
    if Ascii.ascii_dec (Ascii.ascii_of_nat 46) c then true else false).
  { destruct c as [[] [] [] [] [] [] [] []]; destruct s; reflexivity. }
  cbn [String.index]. rewrite Hp.
  destruct (Ascii.ascii_dec (Ascii.ascii_of_nat 46) c) as [e|n].
  - split; [discriminate|intros [Hc _]; congruence].
  - destruct (String.index 0 "." s); split.
    + discriminate.
    + intros [_ Hx]; discriminate.
    + intros _. split; [intros Hc; apply n; congruence|reflexivity].
    + reflexivity.
Qed.

Lemma split_nodot (s acc : string) (fuel : nat) :
  String.index 0 "." s = None -> (String.length s + 12 <= fuel)%nat ->
  split_go fuel ".github.dev" (String.append s ".github.dev") acc =
  [String.append acc s; ""].
Proof.
  revert acc fuel. induction s as [|c s IH]; intros acc fuel Hn Hf.
  - destruct fuel as [|f]; [cbn in Hf; lia|].
    destruct f as [|f]; [cbn in Hf; lia|].
    rewrite str_app_nil_r. reflexivity.
  - apply nodot_cons in Hn as [Hc Hn].
    destruct fuel as [|f]; [cbn in Hf; lia|].
    rewrite str_app_cons. cbn [split_go].
    assert (Hp : String.prefix ".github.dev" (String c (String.append s ".github.dev")) = false).
    { destruct c as [[] [] [] [] [] [] [] []]; try reflexivity.
      exfalso; apply Hc; reflexivity. }
    rewrite Hp, IH by (exact Hn || (cbn in Hf; lia)).
    rewrite str_app_assoc. reflexivity.
Qed.

Lemma replace_https (s : string) :
  js_replace_first "https://" "" (String.append "https://" s) = s.
Proof.
  unfold js_replace_first.
  assert (H : String.index 0 "https://" (String.append "https://" s) = Some 0%nat).
  { destruct (String.append "https://" s) eqn:E.
    - discriminate E.
    - cbn [String.index]. rewrite <- E, prefix_app. reflexivity. }
  rewrite H. cbn -[String.append].
  rewrite str_length_app. cbn [String.length].
  replace (8 + String.length s - 0 - 8)%nat with (String.length s) by lia.
  rewrite !str_app_cons. cbn [String.substring]. apply substring_all.
Qed.

(** X9: for a codespace whose [web_url] is
    [https://<name>.github.dev] with no '.' in [<name>],
    [generateCodespacePortUrl] gives [https://<name>-<port>.app.github.dev]. *)
Theorem port_url_from_web_url (s port : string) :
  String.index 0 "." s = None ->
  generateCodespacePortUrl (Some (String.append "https://" (String.append s ".github.dev"))) port =
  String.append "https://" (String.append s (String.append "-" (String.append port ".app.github.dev"))).
Proof.
  intros Hn. unfold generateCodespacePortUrl.
  destruct (String.append "https://" (String.append s ".github.dev")) eqn:E.
  { discriminate E. }
  rewrite <- E, replace_https. unfold js_split.
  rewrite split_nodot; [reflexivity|exact Hn|].
  rewrite str_length_app. cbn. lia.
Qed.

Lemma port_url_from_web_url_witness :
  String.index 0 "." "alice-repo-x7g9" = None /\
  generateCodespacePortUrl (Some (String.append "https://" (String.append "alice-repo-x7g9" ".github.dev"))) "3000" =
  String.append "https://" (String.append "alice-repo-x7g9" (String.append "-" (String.append "3000" ".app.github.dev"))).
Proof. split; [reflexivity|apply port_url_from_web_url; reflexivity]. Defined.

End PortUrlFacts.

Module ListingsFacts.
Import Listings.
Local Open Scope string_scope.

Lemma add_get (k k' : string) (c : CodespaceInfo) acc :
  assoc_get k (add_to_group k' c acc) =
  if String.eqb k' k then Some (default [] (assoc_get k acc) ++ [c])%list
  else assoc_get k acc.
Proof.
  induction acc as [|[k0 g] acc IH]; cbn.
  - destruct (String.eqb k' k); reflexivity.
  - destruct (String.eqb k0 k') eqn:E0; cbn.
    + apply String.eqb_eq in E0; subst k0.
      destruct (String.eqb k' k); reflexivity.
    + destruct (String.eqb k0 k) eqn:E1; [|exact IH].
      apply String.eqb_eq in E1; subst k0.
      destruct (String.eqb k' k) eqn:E2; [|reflexivity].
      apply String.eqb_eq in E2; subst k'. rewrite String.eqb_refl in E0. discriminate.
Qed.

Lemma add_keys (k : string) (c : CodespaceInfo) acc :
  NoDup (map fst acc) -> NoDup (map fst (add_to_group k c acc)) /\
  (forall x, x ∈ map fst (add_to_group k c acc) <-> x = k \/ x ∈ map fst acc).
Proof.
  induction acc as [|[k0 g] acc IH]; cbn; intros Hnd.
  - split; [constructor; [set_solver|constructor]|]. set_solver.
  - apply NoDup_cons in Hnd as [Hn Hnd].
    destruct (String.eqb k0 k) eqn:E; cbn.
    + apply String.eqb_eq in E; subst k0. split; [constructor; assumption|].
      intros x. rewrite !elem_of_cons. tauto.
    + apply String.eqb_neq in E. destruct (IH Hnd) as [H1 H2].
      split; [constructor; [rewrite H2; set_solver|exact H1]|].
      intros x. rewrite !elem_of_cons, H2. tauto.
Qed.

Lemma add_sizes (k : string) (c : CodespaceInfo) acc :
  list_sum (map (fun '(_, g) => length g) (add_to_group k c acc)) =
  S (list_sum (map (fun '(_, g) => length g) acc)).
Proof.
  induction acc as [|[k0 g] acc IH]; cbn; [reflexivity|].
  destruct (String.eqb k0 k); cbn.
  - rewrite length_app. cbn. lia.
  - unfold list_sum in IH. lia.
Qed.

Lemma group_fold (l pre : list CodespaceInfo) acc :
  NoDup (map fst acc) ->
  (forall k, assoc_get k acc = state_group k pre) ->
  list_sum (map (fun '(_, g) => length g) acc) = length pre ->
  let g := fold_left (fun acc cs => add_to_group (state_key cs) cs acc) l acc in
  NoDup (map fst g) /\ (forall k, assoc_get k g = state_group k (pre ++ l)%list) /\
  list_sum (map (fun '(_, g) => length g) g) = length (pre ++ l)%list.
Proof.
  revert pre acc. induction l as [|c l IH]; intros pre acc Hnd Hget Hsum; cbn.
  - rewrite app_nil_r. auto.
  - replace (pre ++ c :: l)%list with ((pre ++ [c]) ++ l)%list
      by (rewrite <- app_assoc; reflexivity).
    apply IH.
    + apply add_keys, Hnd.
    + intros k. rewrite add_get, Hget. unfold state_group.
      rewrite filter_app. cbn.
      destruct (String.eqb (state_key c) k); cbn;
        [|rewrite app_nil_r; reflexivity].
      destruct (filter _ pre); reflexivity.
    + rewrite add_sizes, Hsum, length_app. cbn. lia.
Qed.

Lemma group_by_state_spec (l : list CodespaceInfo) :
  NoDup (map fst (group_by_state l)) /\
  (forall k, assoc_get k (group_by_state l) = state_group k l) /\
  list_sum (map (fun '(_, g) => length g) (group_by_state l)) = length l.
Proof.
  apply (group_fold l [] []); [constructor|reflexivity|reflexivity].
Qed.

Lemma summary_counts (g : list (string * list CodespaceInfo)) :
  map fst (map (fun '(state, g) => (state, length g)) g) = map fst g /\
  list_sum (map snd (map (fun '(state, g) => (state, length g)) g)) =
  list_sum (map (fun '(_, g) => length g) g).
Proof.
  induction g as [|[k x] g IH]; [split; reflexivity|]. destruct IH as [H1 H2].
  unfold list_sum in *. split; cbn; [congruence|lia].
Qed.

Lemma available_key (c : CodespaceInfo) :
  is_available c = String.eqb (state_key c) "Available".
Proof.
  unfold is_available, state_key. destruct (cs_state c) as [s|]; [|reflexivity].
  case_bool_decide; [subst s; reflexivity|reflexivity].
Qed.

(** X10: [listAllCodespacesForRepo] groups the codespaces it lists by
    state without loss: each state name occurs once among the keys of
    [groupedByState], the group of a state is the listed codespaces in
    that state (in listing order), the summary has the same keys, and its
    counts add up to [count], the number of codespaces listed. *)
Theorem all_codespaces_grouped (repo : option string) (search : option (list Repository))
    (all cs : list CodespaceInfo) (n : nat) (g : list (string * list CodespaceInfo))
    (summ : list (string * nat)) (names : list string) :
  listAllCodespacesForRepo repo search all = AllListed cs n g summ names ->
  search_names repo search = Some names /\ cs = filter (in_repos names) all /\
  NoDup (map fst g) /\ (forall k, assoc_get k g = state_group k cs) /\
  map fst summ = map fst g /\ list_sum (map snd summ) = n /\ n = length cs.
Proof.
  unfold listAllCodespacesForRepo. destruct (search_names repo search) as [rn|]; [|discriminate].
  intros H. injection H as <- <- <- <- <-.
  destruct (group_by_state_spec (filter (in_repos rn) all)) as (H1 & H2 & H3).
  destruct (summary_counts (group_by_state (filter (in_repos rn) all))) as [H4 H5].
  repeat split; auto. rewrite H5. exact H3.
Qed.

(** X11: [listActiveCodespacesForRepo] lists exactly the ["Available"]
    group of [listAllCodespacesForRepo] for the same arguments: both give
    up in the same cases, it reports no active codespace exactly when that
    group is absent, and otherwise lists that group with the same
    searched repositories. *)
Theorem active_is_available_group (repo : option string) (search : option (list Repository))
    (all : list CodespaceInfo) :
  listActiveCodespacesForRepo repo search all =
  match listAllCodespacesForRepo repo search all with
  | AllNoRepo => ActiveNoRepo
  | AllListed _ _ g _ names =>
      match assoc_get "Available" g with
      | None => ActiveNone
      | Some a => ActiveListed a (length a) names
      end
  end.
Proof.
  unfold listActiveCodespacesForRepo, listAllCodespacesForRepo.
  destruct (search_names repo search) as [rn|]; [|reflexivity].
  destruct (group_by_state_spec (filter (in_repos rn) all)) as (_ & H2 & _).
  rewrite H2. unfold state_group. rewrite list_filter_filter.
  rewrite (list_filter_iff (fun c => in_repos rn c && is_available c)
    (fun c => String.eqb (state_key c) "Available" /\ in_repos rn c)).
  2:{ intros c. rewrite available_key.
      destruct (in_repos rn c), (String.eqb (state_key c) "Available"); cbn; tauto. }
  clear H2. destruct (filter _ all); reflexivity.
Qed.

Lemma all_codespaces_grouped_witness :
  listAllCodespacesForRepo (Some "codespace-executor") None [cs_a; cs_b; cs_c; cs_d; cs_e] =
    AllListed [cs_a; cs_b; cs_d; cs_e] 4
      [("Available", [cs_a; cs_e]); ("Shutdown", [cs_b]); ("Unknown", [cs_d])]
      [("Available", 2%nat); ("Shutdown", 1%nat); ("Unknown", 1%nat)] ["codespace-executor"] /\
  (search_names (Some "codespace-executor") None = Some ["codespace-executor"] /\
   [cs_a; cs_b; cs_d; cs_e] = filter (in_repos ["codespace-executor"]) [cs_a; cs_b; cs_c; cs_d; cs_e] /\
   NoDup (map fst [("Available", [cs_a; cs_e]); ("Shutdown", [cs_b]); ("Unknown", [cs_d])]) /\
   (forall k, assoc_get k [("Available", [cs_a; cs_e]); ("Shutdown", [cs_b]); ("Unknown", [cs_d])] =
              state_group k [cs_a; cs_b; cs_d; cs_e]) /\
   map fst [("Available", 2%nat); ("Shutdown", 1%nat); ("Unknown", 1%nat)] =
     map fst [("Available", [cs_a; cs_e]); ("Shutdown", [cs_b]); ("Unknown", [cs_d])] /\
   list_sum (map snd [("Available", 2%nat); ("Shutdown", 1%nat); ("Unknown", 1%nat)]) = 4%nat /\
   4%nat = length [cs_a; cs_b; cs_d; cs_e]).
Proof.
  split; [reflexivity|]. apply all_codespaces_grouped. reflexivity.
Defined.

Lemma test_access_split (access : nat -> bool) (i : nat) (rs : list Repository) :
  let '(w, wo) := test_access access i rs in
  (length w + length wo = length rs)%nat /\ sublist w rs /\ sublist wo rs.
Proof.
  revert i. induction rs as [|r rs IH]; intros i; cbn.
  - repeat split; constructor.
  - specialize (IH (S i)). destruct (test_access access (S i) rs) as [w wo].
    destruct IH as (H1 & H2 & H3).
    destruct (access i); cbn; repeat split; try lia;
      try (apply sublist_skip; assumption); apply sublist_cons; assumption.
Qed.

Lemma collect_executor (orgs : list (option (list Repository))) acc :
  Forall (fun r => is_executor_repo r = true) acc ->
  Forall (fun r => is_executor_repo r = true) (collect_org_repos orgs acc).
Proof.
  revert acc. induction orgs as [|[rs|] orgs IH]; intros acc H; cbn; auto.
  apply IH, Forall_app. split; [exact H|].
  apply Forall_forall. intros r Hr. apply list_elem_of_filter in Hr as [Hr _].
  destruct (is_executor_repo r); [reflexivity|contradiction].
Qed.

(** X12: [findCodespaceExecutorRepos] reports every repository it found
    as either with or without codespace access: [count] and [withoutAccess]
    add up to [totalFound], the length of [allFoundRepos]; the repositories
    returned (with access) keep the order of [allFoundRepos], and every
    found repository has "codespace-executor" in its lowercased name. *)
Theorem find_repos_accounted (userList : list Repository)
    (orgs : list (option (list Repository))) (access : nat -> bool) :
  let r := findCodespaceExecutorRepos userList orgs access in
  (find_count r + withoutAccess r = totalFound r)%nat /\
  totalFound r = length (allFoundRepos r) /\
  withAccess r = find_count r /\
  sublist (repositories r) (allFoundRepos r) /\
  Forall (fun x => is_executor_repo x = true) (allFoundRepos r).
Proof.
  unfold findCodespaceExecutorRepos. cbn zeta.
  pose proof (test_access_split access 0
    (filter is_executor_repo userList ++ collect_org_repos orgs [])%list) as Hs.
  destruct (test_access access 0 _) as [w wo]. cbn.
  destruct Hs as (H1 & H2 & _). repeat split; auto.
  apply Forall_app. split.
  - apply Forall_forall. intros x Hx. apply list_elem_of_filter in Hx as [Hx _].
    destruct (is_executor_repo x); [reflexivity|contradiction].
  - apply collect_executor. constructor.
Qed.

End ListingsFacts.

Module ShortcutsFacts.
Import Shortcuts.
Local Open Scope string_scope.

Lemma js_get_insert_ne (inputs : gmap string JVal) (k key : string) (v : JVal) :
  key <> k -> js_get (<[k:=v]> inputs) key = js_get inputs key.
Proof.
  intros Hne. unfold js_get. case_bool_decide; [reflexivity|].
  rewrite lookup_insert_ne by congruence. reflexivity.
Qed.

Lemma errors_fold_app (inputs : gmap string JVal) (schema : list (string * FieldSchema)) acc :
  fold_left (fun errs e => (errs ++ field_errors inputs e)%list) schema acc =
  (acc ++ fold_left (fun errs e => (errs ++ field_errors inputs e)%list) schema [])%list.
Proof.
  revert acc. induction schema as [|e schema IH]; intros acc; cbn.
  - rewrite app_nil_r. reflexivity.
  - rewrite IH, (IH (field_errors inputs e)), app_assoc. reflexivity.
Qed.

Lemma errors_fold_insert (inputs : gmap string JVal) (k : string) (v : JVal)
    (schema : list (string * FieldSchema)) acc :
  ~ In k (map fst schema) ->
  fold_left (fun errs e => (errs ++ field_errors (<[k:=v]> inputs) e)%list) schema acc =
  fold_left (fun errs e => (errs ++ field_errors inputs e)%list) schema acc.
Proof.
  revert acc. induction schema as [|[key fs] schema IH]; intros acc Hk; cbn; [reflexivity|].
  cbn in Hk. rewrite IH by tauto. f_equal. f_equal.
  unfold field_errors. rewrite js_get_insert_ne by (intros ->; tauto). reflexivity.
Qed.

Lemma proto_member_not_nullish (k : string) (p : JVal) :
  object_prototype_member k = Some p -> nullish p = false.
Proof.
  unfold object_prototype_member.
  case_bool_decide; [intros [= <-]; reflexivity|].
  case_bool_decide; [intros [= <-]; reflexivity|].
  destruct (existsb _ _); [intros [= <-]; reflexivity|discriminate].
Qed.

Lemma take_word_word (t w r : string) :
  take_word t = (w, r) -> w = "" \/ word w = true.
Proof.
  revert w r. induction t as [|c t IH]; intros w r; cbn.
  - intros [= <- _]. left. reflexivity.
  - destruct (is_word_char c) eqn:Ec; [|intros [= <- _]; left; reflexivity].
    destruct (take_word t) as [w' r'] eqn:Et. intros [= <- _]. right.
    destruct (IH w' r' eq_refl) as [->|Hw]; [exact Ec|].
    destruct w' as [|c' w'']; [discriminate|]. cbn. rewrite Ec. exact Hw.
Qed.

Lemma match_at_word (s name rest : string) :
  match_at s = Some (name, rest) -> word name = true.
Proof.
  unfold match_at. destruct s as [|c1 [|c2 r]]; try discriminate.
  destruct (_ && _); [|discriminate].
  destruct (take_word (skip_spaces r)) as [w r2] eqn:E.
  destruct w as [|a w]; [discriminate|].
  destruct (skip_spaces r2) as [|c3 [|c4 r3]]; try discriminate.
  destruct (_ && _); [|discriminate]. intros [= <- _].
  destruct (take_word_word _ _ _ E) as [H|H]; [discriminate|exact H].
Qed.

Lemma extract_go_inv (fuel : nat) (s : string) (vars : list string) :
  NoDup vars -> Forall (fun x => word x = true) vars ->
  NoDup (extract_go fuel s vars) /\ Forall (fun x => word x = true) (extract_go fuel s vars).
Proof.
  revert s vars. induction fuel as [|f IH]; intros s vars Hnd Hw; cbn; [auto|].
  destruct s as [|c r]; [auto|].
  destruct (match_at (String c r)) as [[name rest]|] eqn:Em; [|apply IH; auto].
  apply IH.
  - destruct (existsb (String.eqb name) vars) eqn:Ex; [exact Hnd|].
    apply NoDup_app. split; [exact Hnd|]. split; [|apply NoDup_singleton].
    intros x Hx Hx'. apply list_elem_of_singleton in Hx'. subst x.
    apply list_elem_of_In in Hx.
    assert (existsb (String.eqb name) vars = true) as Ht
      by (apply existsb_exists; exists name; split; [exact Hx|apply String.eqb_refl]).
    congruence.
  - destruct (existsb (String.eqb name) vars); [exact Hw|].
    apply Forall_app. split; [exact Hw|]. constructor; [|constructor].
    exact (match_at_word _ _ _ Em).
Qed.

(** X13: [validateInputs] only looks at the inputs the schema names:
    adding or overwriting an input under a key that is not a field of the
    schema changes neither the validity nor the error list. *)
Theorem validate_ignores_extra_inputs (inputs : gmap string JVal) (k : string) (v : JVal)
    (schema : list (string * FieldSchema)) :
  ~ In k (map fst schema) ->
  validateInputs (<[k:=v]> inputs) schema = validateInputs inputs schema.
Proof.
  intros Hk. unfold validateInputs. rewrite errors_fold_insert by exact Hk. reflexivity.
Qed.

Lemma validate_ignores_extra_inputs_witness :
  ~ In "extra" (map fst [("name", mkFieldSchema TString true None)]) /\
  validateInputs (<["extra" := JNumber "1"]> ∅) [("name", mkFieldSchema TString true None)] =
  validateInputs ∅ [("name", mkFieldSchema TString true None)].
Proof.
  split; [cbn; intros [H|[]]; discriminate H|].
  apply validate_ignores_extra_inputs. cbn. intros [H|[]]; discriminate H.
Defined.

(** X14: validating against a schema whose entries are those of [s1]
    followed by those of [s2] gives the errors for [s1] followed by the
    errors for [s2], and is valid exactly when both validations are. *)
Theorem validate_schema_app (inputs : gmap string JVal) (s1 s2 : list (string * FieldSchema)) :
  validateInputs inputs (s1 ++ s2) =
  (fst (validateInputs inputs s1) && fst (validateInputs inputs s2),
   (snd (validateInputs inputs s1) ++ snd (validateInputs inputs s2))%list).
Proof.
  unfold validateInputs. cbn. rewrite fold_left_app, errors_fold_app.
  f_equal. rewrite length_app.
  destruct (length (fold_left _ s1 [])), (length (fold_left _ s2 [])); reflexivity.
Qed.

(** X15: an input missing from [inputs] whose key names a member that
    every object inherits from [Object.prototype] (such as ["toString"] or
    ["constructor"]) is never reported as a missing required field:
    [inputs[key]] reads the inherited member, and the field is checked
    against its type and options instead. *)
Theorem inherited_member_not_missing (inputs : gmap string JVal) (k : string)
    (f : FieldSchema) (p : JVal) :
  inputs !! k = None -> object_prototype_member k = Some p ->
  validateInputs inputs [(k, f)] =
  (Nat.eqb (length (type_errors k (f_type f) p ++ option_errors k f p)%list) 0,
   (type_errors k (f_type f) p ++ option_errors k f p)%list).
Proof.
  intros Hk Hp.
  assert (Hg : js_get inputs k = p).
  { unfold js_get. case_bool_decide as Hpr.
    - subst k. cbv in Hp. congruence.
    - rewrite Hk. cbn. rewrite Hp. reflexivity. }
  unfold validateInputs. cbn. unfold field_errors. rewrite Hg, (proto_member_not_nullish k p Hp).
  rewrite andb_false_r. reflexivity.
Qed.

Lemma inherited_member_not_missing_witness :
  (∅ : gmap string JVal) !! "toString" = None /\
  object_prototype_member "toString" = Some (JFunction "toString") /\
  validateInputs ∅ [("toString", mkFieldSchema TString true None)] =
  (false, ["Field 'toString' must be a string"]).
Proof.
  split; [apply lookup_empty|]. split; [reflexivity|].
  rewrite (inherited_member_not_missing ∅ "toString" (mkFieldSchema TString true None)
             (JFunction "toString")); [reflexivity|apply lookup_empty|reflexivity].
Defined.

(** X16: [extractVariables] returns each variable name at most once, and
    every name it returns is a non-empty run of word characters
    ([[A-Za-z0-9_]]). *)
Theorem extract_variables_distinct_words (script : string) :
  NoDup (extractVariables script) /\ Forall (fun x => word x = true) (extractVariables script).
Proof. apply extract_go_inv; constructor. Qed.

End ShortcutsFacts.

Module CryptoExtra.
Import Crypto CryptoFacts.

Lemma code_points_units (n : nat) (s : list Z) :
  (length s <= n)%nat -> Forall (fun u => 0 <= u < 65536) s -> Forall scalar (code_points s).
Proof.
  assert (R : scalar 65533) by (split; lia).
  revert s; induction n as [|n IH]; intros s Hl U.
  - destruct s; [constructor|simpl in Hl; lia].
  - destruct s as [|u r]; [constructor|].
    inversion U as [|? ? Hu Ur]; subst.
    cbn [code_points]. destruct (is_high u) eqn:Hh.
    + destruct r as [|v r']; [constructor; [exact R|constructor]|].
      inversion Ur as [|? ? Hv Ur']; subst.
      destruct (is_low v) eqn:Hlv.
      * constructor; [|apply IH; [simpl in Hl; lia|exact Ur']].
        rewrite Z.shiftl_mul_pow2, !land1023 by lia. change (2 ^ 10) with 1024.
        pose proof (Z.mod_pos_bound u 1024 ltac:(lia)). pose proof (Z.mod_pos_bound v 1024 ltac:(lia)).
        split; lia.
      * constructor; [exact R|apply IH; [simpl in Hl |- *; lia|exact Ur]].
    + destruct (is_low u) eqn:Hlu.
      * constructor; [exact R|apply IH; [simpl in Hl |- *; lia|exact Ur]].
      * constructor; [|apply IH; [simpl in Hl; lia|exact Ur]].
        apply not_true_iff_false in Hh. apply not_true_iff_false in Hlu.
        rewrite is_high_spec in Hh. rewrite is_low_spec in Hlu. split; lia.
Qed.

Lemma utf8_encode_bytes (P : list Z) :
  Forall (fun u => 0 <= u < 65536) P -> Bytes (utf8_encode P).
Proof. intros U. apply flat_utf8_bytes, (code_points_units (length P)); [lia|exact U]. Qed.

Lemma split_prefix (a rest : list Z) :
  Forall (fun c => c <> 58) a -> js_split_char 58 (a ++ 58 :: rest) = a :: js_split_char 58 rest.
Proof.
  induction 1 as [|c a Hc _ IH]; [reflexivity|].
  cbn [app js_split_char]. rewrite IH, (proj2 (Z.eqb_neq c 58) Hc). reflexivity.
Qed.

(** X17: whatever JavaScript string is encrypted (any code units, lone
    surrogates included), with a 32-byte key and a 16-byte IV [encrypt]
    returns the IV in hex, a ':' and the ciphertext in hex, the ciphertext
    being whole 16-byte blocks, one more than the UTF-8 plaintext fills;
    and [decrypt] of that output succeeds, with the UTF-8 decoding of the
    UTF-8 encoding of the plaintext. *)
Theorem encrypt_output_format (K iv P : list Z) :
  blk 32 K -> blk 16 iv -> Forall (fun u => 0 <= u < 65536) P ->
  exists C, encrypt K iv P = Ok (hex_encode iv ++ [58] ++ hex_encode C) /\
            blk (16 * (length (utf8_encode P) / 16 + 1)) C /\
            decrypt K (hex_encode iv ++ [58] ++ hex_encode C) = Ok (utf8_decode (utf8_encode P)).
Proof.
  intros HK Hiv U.
  destruct (round_keys_ok K HK) as [LK FK].
  assert (Eb : forall b, blk 16 b -> blk 16 (aes_encrypt_block K b))
    by (intros b Hb; exact (proj1 (aes_block_inverse K b LK FK Hb))).
  assert (DE : forall b, blk 16 b -> aes_decrypt_block K (aes_encrypt_block K b) = b)
    by (intros b Hb; exact (proj2 (aes_block_inverse K b LK FK Hb))).
  pose proof (utf8_encode_bytes P U) as Bp.
  destruct (pkcs7_pad_facts (utf8_encode P) Bp) as (Bpad & Mpad & Lpad).
  destruct (blocks_blk _ Mpad Bpad) as [Fb Cb].
  destruct (cbc_roundtrip _ _ Eb DE iv _ Hiv Fb) as (cs & Ec & Fc & Lc & Dc).
  assert (Lb : length (pkcs7_pad (utf8_encode P)) =
               (16 * length (blocks (pkcs7_pad (utf8_encode P))))%nat)
    by (rewrite <- (length_concat_blk _ Fb), Cb; reflexivity).
  exists (concat cs). split; [|split].
  - rewrite (encrypt_ok K iv P (proj1 HK) (proj1 Hiv)).
    unfold cbc_encrypt, cbc_enc_blocks. rewrite Ec. reflexivity.
  - split; [|exact (concat_blk_bytes cs Fc)].
    rewrite (length_concat_blk cs Fc), Lc, <- Lb.
    unfold pkcs7_pad. rewrite length_app, repeat_length.
    pose proof (Nat.mod_upper_bound (length (utf8_encode P)) 16 ltac:(lia)).
    pose proof (Nat.div_mod_eq (length (utf8_encode P)) 16). lia.
  - rewrite (decrypt_ok K iv (concat cs) (proj1 HK) Hiv (concat_blk_bytes cs Fc)).
    + rewrite (blocks_concat cs Fc). unfold cbc_dec_blocks.
      rewrite Dc, Cb, pkcs7_unpad_pad. reflexivity.
    + rewrite (length_concat_blk cs Fc). lia.
    + rewrite (length_concat_blk cs Fc), Nat.mul_comm. apply Nat.Div0.mod_mul.
Qed.

Lemma encrypt_output_format_witness :
  blk 32 demo_key /\ blk 16 demo_iv /\ Forall (fun u => 0 <= u < 65536) [55296; 104] /\
  exists C, encrypt demo_key demo_iv [55296; 104] = Ok (hex_encode demo_iv ++ [58] ++ hex_encode C) /\
            blk (16 * (length (utf8_encode [55296; 104]) / 16 + 1)) C /\
            decrypt demo_key (hex_encode demo_iv ++ [58] ++ hex_encode C) =
              Ok (utf8_decode (utf8_encode [55296; 104])).
Proof.
  assert (HK : blk 32 demo_key).
  { split; [reflexivity|]. cbv [demo_key]. simpl.
    repeat (apply List.Forall_cons; [lia|]). apply List.Forall_nil. }
  assert (Hiv : blk 16 demo_iv).
  { split; [reflexivity|]. cbv [demo_iv]. simpl.
    repeat (apply List.Forall_cons; [lia|]). apply List.Forall_nil. }
  assert (HP : Forall (fun u => 0 <= u < 65536) [55296; 104]).
  { repeat (apply List.Forall_cons; [lia|]). apply List.Forall_nil. }
  split; [exact HK|]. split; [exact Hiv|]. split; [exact HP|].
  exact (encrypt_output_format demo_key demo_iv [55296; 104] HK Hiv HP).
Defined.

(** X18: [decrypt] reads only the first two ':'-separated fields: a ':'
    and anything after the ciphertext field change nothing, whatever the
    key. *)
Theorem decrypt_ignores_third_field (K a b t : list Z) :
  Forall (fun c => c <> 58) a -> Forall (fun c => c <> 58) b ->
  decrypt K (a ++ [58] ++ b ++ [58] ++ t) = decrypt K (a ++ [58] ++ b).
Proof.
  intros Fa Fb. unfold decrypt, decrypt_try. cbn [app].
  rewrite !split_prefix by assumption. rewrite split_none by exact Fb. reflexivity.
Qed.

Lemma decrypt_ignores_third_field_witness :
  Forall (fun c => c <> 58) [48; 48] /\ Forall (fun c => c <> 58) [49; 49] /\
  decrypt demo_key ([48; 48] ++ [58] ++ [49; 49] ++ [58] ++ [120]) =
  decrypt demo_key ([48; 48] ++ [58] ++ [49; 49]).
Proof.
  assert (Fa : Forall (fun c => c <> 58) [48; 48])
    by (repeat (apply List.Forall_cons; [lia|]); apply List.Forall_nil).
  assert (Fb : Forall (fun c => c <> 58) [49; 49])
    by (repeat (apply List.Forall_cons; [lia|]); apply List.Forall_nil).
  split; [exact Fa|]. split; [exact Fb|].
  exact (decrypt_ignores_third_field demo_key [48; 48] [49; 49] [120] Fa Fb).
Defined.

(** X19: [decrypt] fails with "Failed to decrypt data", whatever the key
    and the IV field, when the ciphertext field is the hex of a byte
    string whose length is not a multiple of 16 (a truncated or padded
    ciphertext). *)
Theorem decrypt_rejects_partial_block (K a C : list Z) :
  Forall (fun c => c <> 58) a -> Bytes C -> (length C mod 16 <> 0)%nat ->
  decrypt K (a ++ [58] ++ hex_encode C) = Err "Failed to decrypt data".
Proof.
  intros Fa BC MC. unfold decrypt, decrypt_try.
  rewrite split_two by (exact Fa || apply hex_encode_no_colon).
  destruct (bool_decide (a = [])); [reflexivity|].
  rewrite bool_decide_false
    by (intros Ee; apply (f_equal (@length Z)) in Ee; rewrite hex_encode_length in Ee;
        destruct C; [apply MC; reflexivity|simpl in Ee; lia]).
  cbn [orb]. destruct (cipheriv_check K (hex_decode a)); [|reflexivity].
  rewrite hex_encode_length, Nat.odd_even. cbn [negb].
  replace (Nat.even (2 * length C)) with true
    by (symmetry; apply Nat.even_spec; exists (length C); reflexivity).
  cbn [negb]. rewrite hex_decode_encode by exact BC.
  unfold cbc_decrypt. replace (length C mod 16 =? 0)%nat with false
    by (symmetry; apply Nat.eqb_neq; exact MC).
  rewrite orb_true_r. reflexivity.
Qed.

Lemma decrypt_rejects_partial_block_witness :
  Forall (fun c => c <> 58) (hex_encode demo_iv) /\ Bytes [1; 2; 3] /\
  (length [1; 2; 3] mod 16 <> 0)%nat /\
  decrypt demo_key (hex_encode demo_iv ++ [58] ++ hex_encode [1; 2; 3]) = Err "Failed to decrypt data".
Proof.
  assert (Fa : Forall (fun c => c <> 58) (hex_encode demo_iv)) by apply hex_encode_no_colon.
  assert (BC : Bytes [1; 2; 3])
    by (repeat (apply List.Forall_cons; [lia|]); apply List.Forall_nil).
  assert (MC : (length [1; 2; 3] mod 16 <> 0)%nat) by (simpl; lia).
  split; [exact Fa|]. split; [exact BC|]. split; [exact MC|].
  exact (decrypt_rejects_partial_block demo_key (hex_encode demo_iv) [1; 2; 3] Fa BC MC).
Defined.

End CryptoExtra.
